(** * QR: Redis-based data structures (qr.py), a shallow embedding

    [qr.py] wraps four handle classes ([Deque], [Queue], [CappedCollection],
    [Stack]) around a Redis connection.  Every method sends one request to
    the server (a single list command, or one MULTI/EXEC batch for
    [CappedCollection.push]), optionally calls [log.debug], and returns the
    decoded reply.

    The development has three layers:
    - [Redis]: the server's list commands over a keyspace, and the requests
      a connection can send (the store collaborator of [qr.py]);
    - a state monad [M] over a [world] holding the server, the requests sent
      so far and the records handed to the logger ['qr'];
    - one module per class of [qr.py], method by method. *)

From stdpp Require Import base gmap list strings.
From Stdlib Require Import ZArith NArith Ascii.

(** ** The store: Redis list commands

    The server is not part of [qr.py]; its commands are given the meaning
    of the Redis command reference: LPUSH and LPOP work on the left end
    (index 0), RPUSH and RPOP on the right end, LRANGE and LTRIM take an
    inclusive range whose negative indexes count from the end, and a
    MULTI/EXEC block is served as a unit. *)

Module Redis.

(** The list commands [qr.py] calls through redis-py. *)
Inductive command : Type :=
| LPUSH (name value : string)
| RPUSH (name value : string)
| LPOP (name : string)
| RPOP (name : string)
| LRANGE (name : string) (start stop : Z)
| LTRIM (name : string) (start stop : Z).

(** What travels to the server in one indivisible unit: one command, or
    the command stack of a pipeline wrapped in MULTI/EXEC. *)
Inductive request : Type :=
| Single (c : command)
| MultiExec (cs : list command).

Inductive reply : Type :=
| Status
| Integer (n : Z)
| Bulk (v : option string)
| MultiBulk (v : option (list string)).

(** How the server answers LRANGE on a key that does not exist: older
    servers send a nil multi-bulk (redis-py decodes it to [None]), newer
    ones an empty multi-bulk (decoded to [[]]). *)
Inductive absent_range : Type := NullMultiBulk | EmptyMultiBulk.

(** The server: a keyspace of lists; index 0 of a list is its left end.
    A key whose list becomes empty is removed. *)
Record server : Type := Server {
  absent : absent_range;
  keyspace : gmap string (list string)
}.

Definition llist (name : string) (srv : server) : list string :=
  default [] (keyspace srv !! name).

Definition store (name : string) (l : list string) (srv : server) : server :=
  Server (absent srv)
         (match l with
          | [] => delete name (keyspace srv)
          | _ :: _ => <[name := l]> (keyspace srv)
          end).

(** Index arithmetic shared by LRANGE and LTRIM: negative indexes count
    from the end ([-1] is the last element), the range is inclusive. *)
Definition slice (l : list string) (start stop : Z) : list string :=
  let llen := Z.of_nat (length l) in
  let start := if (start <? 0)%Z then (llen + start)%Z else start in
  let stop := if (stop <? 0)%Z then (llen + stop)%Z else stop in
  let start := if (start <? 0)%Z then 0%Z else start in
  if ((stop <? start)%Z || (llen <=? start)%Z)%bool then []
  else
    let stop := if (llen <=? stop)%Z then (llen - 1)%Z else stop in
    take (Z.to_nat (stop - start + 1)) (drop (Z.to_nat start) l).

Definition absent_reply (a : absent_range) : option (list string) :=
  match a with
  | NullMultiBulk => None
  | EmptyMultiBulk => Some []
  end.

Definition exec (c : command) (srv : server) : reply * server :=
  match c with
  | LPUSH name value =>
      let l := value :: llist name srv in
      (Integer (Z.of_nat (length l)), store name l srv)
  | RPUSH name value =>
      let l := llist name srv ++ [value] in
      (Integer (Z.of_nat (length l)), store name l srv)
  | LPOP name =>
      match llist name srv with
      | [] => (Bulk None, srv)
      | x :: l => (Bulk (Some x), store name l srv)
      end
  | RPOP name =>
      match reverse (llist name srv) with
      | [] => (Bulk None, srv)
      | x :: l => (Bulk (Some x), store name (reverse l) srv)
      end
  | LRANGE name start stop =>
      match keyspace srv !! name with
      | None => (MultiBulk (absent_reply (absent srv)), srv)
      | Some l => (MultiBulk (Some (slice l start stop)), srv)
      end
  | LTRIM name start stop =>
      match keyspace srv !! name with
      | None => (Status, srv)
      | Some l => (Status, store name (slice l start stop) srv)
      end
  end.

(** EXEC runs the queued commands back to back and answers with the list
    of their replies. *)
Fixpoint exec_all (cs : list command) (srv : server) : list reply * server :=
  match cs with
  | [] => ([], srv)
  | c :: cs =>
      let '(r, srv) := exec c srv in
      let '(rs, srv) := exec_all cs srv in
      (r :: rs, srv)
  end.

(** One request is served without any other client's request in between. *)
Definition serve (rq : request) (srv : server) : list reply * server :=
  match rq with
  | Single c => let '(r, srv) := exec c srv in ([r], srv)
  | MultiExec cs => exec_all cs srv
  end.

End Redis.

Import Redis.

(** ** Effects: the server, the connection and the logger *)

Record world : Type := World {
  redis : server;            (* the server that [self.redis] talks to *)
  wire : list request;       (* requests sent so far, oldest first *)
  records : list string      (* messages passed to [log.debug], oldest first *)
}.

Definition M (A : Type) : Type := world -> A * world.

Definition ret {A} (a : A) : M A := fun w => (a, w).

Definition bind {A B} (m : M A) (k : A -> M B) : M B :=
  fun w => let '(a, w) := m w in k a w.

Notation "'let*' x ':=' m 'in' k" := (bind m (fun x => k))
  (at level 10, x name, m at level 100, k at level 200, only parsing).
Notation "m ';;' k" := (bind m (fun _ => k))
  (at level 100, k at level 200, right associativity, only parsing).

Definition result {A} (m : M A) (w : world) : A := fst (m w).
Definition after {A} (m : M A) (w : world) : world := snd (m w).

(** [log.debug(msg)] on the module's logger. *)
Definition log_debug (msg : string) : M unit :=
  fun w => (tt, World (redis w) (wire w) (records w ++ [msg])).

(** Sending a request: it is noted on the wire and served at once. *)
Definition send (rq : request) : M (list reply) :=
  fun w =>
    let '(rs, srv) := serve rq (redis w) in
    (rs, World srv (wire w ++ [rq]) (records w)).

(** redis-py's methods: send the command, decode the reply. *)
Definition execute_command (c : command) : M reply :=
  let* rs := send (Single c) in
  ret (match rs with r :: _ => r | [] => Status end).

Definition bulk (r : reply) : option string :=
  match r with Bulk v => v | _ => None end.

Definition multi_bulk (r : reply) : option (list string) :=
  match r with MultiBulk v => v | _ => None end.

Definition lpush (name value : string) : M reply :=
  execute_command (LPUSH name value).
Definition rpush (name value : string) : M reply :=
  execute_command (RPUSH name value).
Definition lpop (name : string) : M (option string) :=
  let* r := execute_command (LPOP name) in ret (bulk r).
Definition rpop (name : string) : M (option string) :=
  let* r := execute_command (RPOP name) in ret (bulk r).
Definition lrange (name : string) (start stop : Z) : M (option (list string)) :=
  let* r := execute_command (LRANGE name start stop) in ret (multi_bulk r).

(** redis-py's pipeline: commands pile up on a stack, [execute] sends them
    as one MULTI/EXEC request. *)
Module Pipeline.
Record t : Type := Make { command_stack : list command }.

Definition lpush (p : t) (name value : string) : t :=
  Make (command_stack p ++ [LPUSH name value]).
Definition ltrim (p : t) (name : string) (start stop : Z) : t :=
  Make (command_stack p ++ [LTRIM name start stop]).
Definition execute (p : t) : M (list reply) :=
  send (MultiExec (command_stack p)).
End Pipeline.

Definition pipeline : Pipeline.t := Pipeline.Make [].

(** Python's [%s] applied to a popped value. *)
Definition str (popped : option string) : string :=
  match popped with
  | Some s => s
  | None => "None"%string
  end.

Definition pushed_message (element key : string) : string :=
  ("Pushed ** " +:+ element +:+ " ** for key ** " +:+ key +:+ " **")%string.

Definition popped_message (popped : option string) (key : string) : string :=
  ("Popped ** " +:+ str popped +:+ " ** from key ** " +:+ key +:+ " **")%string.

(** ** The serialization collaborator: [json.dumps] and [json.loads]

    Elements are text, one [ascii] per character.  Only the documents
    [qr.py] can produce are covered: [null] and arrays of strings. *)

Module Json.

Definition quote : ascii := "034"%char.
Definition backslash : ascii := "092"%char.

Definition hex_digit (n : N) : ascii :=
  if (n <? 10)%N then ascii_of_N (48 + n) else ascii_of_N (87 + n).

(** [json.dumps] escapes with [ensure_ascii]: the two-character escapes
    of the encoder's table, the printable range [' '..'~'] as it is, and
    [\u00xx] (lower-case hex) for everything else. *)
Definition escape (c : ascii) : string :=
  let n := N_of_ascii c in
  if (n =? 34)%N then String backslash (String quote EmptyString)
  else if (n =? 92)%N then String backslash (String backslash EmptyString)
  else if (n =? 8)%N then String backslash "b"
  else if (n =? 12)%N then String backslash "f"
  else if (n =? 10)%N then String backslash "n"
  else if (n =? 13)%N then String backslash "r"
  else if (n =? 9)%N then String backslash "t"
  else if ((32 <=? n)%N && (n <=? 126)%N)%bool then String c EmptyString
  else String backslash
         (String "u" (String "0" (String "0"
            (String (hex_digit (n / 16)) (String (hex_digit (n mod 16)) EmptyString))))).

Fixpoint escape_all (s : string) : string :=
  match s with
  | EmptyString => EmptyString
  | String c s => (escape c +:+ escape_all s)%string
  end.

Definition encode_string (s : string) : string :=
  String quote (escape_all s +:+ String quote EmptyString).

Fixpoint join (items : list string) : string :=
  match items with
  | [] => EmptyString
  | [x] => x
  | x :: items => (x +:+ ", " +:+ join items)%string
  end.

(** A Python value [elements()] can return: [None] or a list of strings. *)
Definition dumps (v : option (list string)) : string :=
  match v with
  | None => "null"
  | Some l => ("[" +:+ join (encode_string <$> l) +:+ "]")%string
  end.

(** The decoder, as a scanner over the text. *)
Inductive state : Type :=
| Open                              (* after the bracket: an element or the end *)
| Elem                              (* after a comma: an element *)
| Chars (cur : string)              (* inside a string *)
| Esc (cur : string)                (* after a backslash *)
| Hex (cur : string) (k : nat) (n : N)  (* in a unicode escape, k digits to go *)
| Next                              (* after an element: a comma or the end *)
| Closed.                           (* after the closing bracket *)

Definition is_ws (c : ascii) : bool :=
  let n := N_of_ascii c in
  ((n =? 32) || (n =? 9) || (n =? 10) || (n =? 13))%N.

Definition hex_value (c : ascii) : option N :=
  let n := N_of_ascii c in
  if ((48 <=? n) && (n <=? 57))%N then Some (n - 48)%N
  else if ((97 <=? n) && (n <=? 102))%N then Some (n - 87)%N
  else if ((65 <=? n) && (n <=? 70))%N then Some (n - 55)%N
  else None.

Definition unescape (c : ascii) : option ascii :=
  let n := N_of_ascii c in
  if (n =? 34)%N then Some quote
  else if (n =? 92)%N then Some backslash
  else if (n =? 47)%N then Some "/"%char
  else if (n =? 98)%N then Some "008"%char
  else if (n =? 102)%N then Some "012"%char
  else if (n =? 110)%N then Some "010"%char
  else if (n =? 114)%N then Some "013"%char
  else if (n =? 116)%N then Some "009"%char
  else None.

Definition snoc (cur : string) (c : ascii) : string :=
  (cur +:+ String c EmptyString)%string.

Fixpoint scan (st : state) (acc : list string) (s : string) : option (list string) :=
  match s with
  | EmptyString =>
      match st with
      | Closed => Some acc
      | _ => None
      end
  | String c s =>
      match st with
      | Open =>
          if is_ws c then scan Open acc s
          else if (N_of_ascii c =? 34)%N then scan (Chars EmptyString) acc s
          else if (N_of_ascii c =? 93)%N then scan Closed acc s
          else None
      | Elem =>
          if is_ws c then scan Elem acc s
          else if (N_of_ascii c =? 34)%N then scan (Chars EmptyString) acc s
          else None
      | Chars cur =>
          if (N_of_ascii c =? 34)%N then scan Next (acc ++ [cur]) s
          else if (N_of_ascii c =? 92)%N then scan (Esc cur) acc s
          else if (N_of_ascii c <? 32)%N then None
          else scan (Chars (snoc cur c)) acc s
      | Esc cur =>
          if (N_of_ascii c =? 117)%N then scan (Hex cur 4 0) acc s
          else match unescape c with
               | Some d => scan (Chars (snoc cur d)) acc s
               | None => None
               end
      | Hex cur k n =>
          match hex_value c with
          | None => None
          | Some d =>
              let n := (16 * n + d)%N in
              match k with
              | 0 => None
              | 1 => if (n <? 256)%N
                     then scan (Chars (snoc cur (ascii_of_N n))) acc s
                     else None
              | S k => scan (Hex cur k n) acc s
              end
          end
      | Next =>
          if is_ws c then scan Next acc s
          else if (N_of_ascii c =? 44)%N then scan Elem acc s
          else if (N_of_ascii c =? 93)%N then scan Closed acc s
          else None
      | Closed =>
          if is_ws c then scan Closed acc s else None
      end
  end.

Fixpoint all_ws (s : string) : bool :=
  match s with
  | EmptyString => true
  | String c s => is_ws c && all_ws s
  end.

(** [json.loads] on such a document; [None] is a decoding error. *)
Fixpoint loads (s : string) : option (option (list string)) :=
  match s with
  | EmptyString => None
  | String c r =>
      if is_ws c then loads r
      else if (N_of_ascii c =? 91)%N then Some <$> scan Open [] r
      else match s with
           | String "n" (String "u" (String "l" (String "l" r))) =>
               if all_ws r then Some None else None
           | _ => None
           end
  end.

End Json.

(** ** The four classes of [qr.py] *)

Module Deque.
Record t : Type := Make { key : string }.

Definition pushback (self : t) (element : string) : M unit :=
  let key := key self in
  let* push_it := lpush key element in
  log_debug (pushed_message element key).

Definition pushfront (self : t) (element : string) : M unit :=
  let key := key self in
  let* push_it := rpush key element in
  log_debug (pushed_message element key).

Definition popfront (self : t) : M (option string) :=
  let key := key self in
  let* popped := rpop key in
  log_debug (popped_message popped key) ;;
  ret popped.

Definition popback (self : t) : M (option string) :=
  let key := key self in
  let* popped := lpop key in
  log_debug (popped_message popped key) ;;
  ret popped.

Definition elements (self : t) : M (option (list string)) :=
  let key := key self in
  let* all_elements := lrange key 0 (-1) in
  ret all_elements.

Definition elements_as_json (self : t) : M string :=
  let key := key self in
  let* all_elements := lrange key 0 (-1) in
  let all_elements_as_json := Json.dumps all_elements in
  ret all_elements_as_json.
End Deque.

(** Python's [x or [ ]] on a value that is [None] or a list. *)
Definition or_empty (x : option (list string)) : option (list string) :=
  match x with
  | None | Some [] => Some []
  | Some (_ :: _) => x
  end.

Module Queue.
Record t : Type := Make { key : string }.

Definition push (self : t) (element : string) : M unit :=
  let key := key self in
  let* push_it := lpush key element in
  log_debug (pushed_message element key).

Definition pop (self : t) : M (option string) :=
  let key := key self in
  let* popped := rpop key in
  log_debug (popped_message popped key) ;;
  ret popped.

Definition elements (self : t) : M (option (list string)) :=
  let key := key self in
  let* range := lrange key 0 (-1) in
  let all_elements := or_empty range in
  ret all_elements.

Definition elements_as_json (self : t) : M string :=
  let key := key self in
  let* range := lrange key 0 (-1) in
  let all_elements := or_empty range in
  let all_elements_as_json := Json.dumps all_elements in
  ret all_elements_as_json.
End Queue.

Module CappedCollection.
Record t : Type := Make { key : string; size : Z }.

Definition push (self : t) (element : string) : M unit :=
  let key := key self in
  let size := size self in
  let pipe := pipeline in
  let pipe := Pipeline.ltrim (Pipeline.lpush pipe key element) key 0 (size - 1) in
  Pipeline.execute pipe ;;
  ret tt.

Definition pop (self : t) : M (option string) :=
  let key := key self in
  let* popped := rpop key in
  log_debug (popped_message popped key) ;;
  ret popped.

Definition elements (self : t) : M (option (list string)) :=
  let key := key self in
  let* all_elements := lrange key 0 (-1) in
  ret all_elements.

Definition elements_as_json (self : t) : M string :=
  let key := key self in
  let* all_elements := lrange key 0 (-1) in
  let all_elements_as_json := Json.dumps all_elements in
  ret all_elements_as_json.
End CappedCollection.

Module Stack.
Record t : Type := Make { key : string }.

Definition push (self : t) (element : string) : M unit :=
  let key := key self in
  let* push_it := lpush key element in
  log_debug (pushed_message element key).

Definition pop (self : t) : M (option string) :=
  let key := key self in
  let* popped := lpop key in
  log_debug (popped_message popped key) ;;
  ret popped.

Definition elements (self : t) : M (option (list string)) :=
  let key := key self in
  let* all_elements := lrange key 0 (-1) in
  ret all_elements.

Definition elements_as_json (self : t) : M string :=
  let key := key self in
  let* all_elements := lrange key 0 (-1) in
  let all_elements_as_json := Json.dumps all_elements in
  ret all_elements_as_json.
End Stack.

(** Calling a method once per element, and calling a method [n] times. *)
Fixpoint for_each {A} (f : A -> M unit) (xs : list A) : M unit :=
  match xs with
  | [] => ret tt
  | x :: xs => f x ;; for_each f xs
  end.

Fixpoint times {A} (n : nat) (m : M A) : M (list A) :=
  match n with
  | 0 => ret []
  | S n => let* a := m in let* rest := times n m in ret (a :: rest)
  end.

(** A world whose server holds nothing under [key]. *)
Definition fresh (key : string) (w : world) : Prop :=
  keyspace (redis w) !! key = None.

(** ** Several clients on one server

    Each client sends the requests of its method calls in program order;
    the server serves one request at a time, in whatever order they arrive.
    What a client can observe is the server between two requests. *)

Module Concurrent.

Record system : Type := System {
  srv : server;
  clients : list (list request)   (* per client, the requests still to send *)
}.

Record event : Type := Event {
  who : nat;                      (* the client that was served *)
  what : request;
  answer : list reply;
  seen : server                   (* the server once the request is served *)
}.

Inductive step : system -> event -> system -> Prop :=
| step_serve (i : nat) (rq : request) (rest : list request)
             (srv0 : server) (cls : list (list request))
             (rs : list reply) (srv1 : server) :
    cls !! i = Some (rq :: rest) ->
    serve rq srv0 = (rs, srv1) ->
    step (System srv0 cls) (Event i rq rs srv1) (System srv1 (<[i := rest]> cls)).

Inductive run : system -> list event -> system -> Prop :=
| run_done (s : system) : run s [] s
| run_step (s : system) (ev : event) (s' : system) (tr : list event) (s'' : system) :
    step s ev s' -> run s' tr s'' -> run s (ev :: tr) s''.

End Concurrent.

(** The method call [m] sends exactly the request [rq], whatever the state
    it is called in. *)
Definition sends {A} (m : M A) (rq : request) : Prop :=
  forall w, wire (after m w) = wire w ++ [rq].

(** The requests that calls on the capped collection [c] put on the wire. *)
Inductive capped_request (c : CappedCollection.t) (rq : request) : Prop :=
| by_push (e : string) : sends (CappedCollection.push c e) rq -> capped_request c rq
| by_pop : sends (CappedCollection.pop c) rq -> capped_request c rq
| by_elements : sends (CappedCollection.elements c) rq -> capped_request c rq
| by_elements_as_json :
    sends (CappedCollection.elements_as_json c) rq -> capped_request c rq.

(** The batch [CappedCollection.push] hands to [execute]. *)
Definition push_batch (c : CappedCollection.t) (element : string) : request :=
  MultiExec [LPUSH (CappedCollection.key c) element;
             LTRIM (CappedCollection.key c) 0 (CappedCollection.size c - 1)].

Definition push_request (c : CappedCollection.t) (rq : request) : Prop :=
  exists e, sends (CappedCollection.push c e) rq.

(** Every client only calls methods of [c] (through handles of the same key
    and size). *)
Definition capped_clients (c : CappedCollection.t) (s : Concurrent.system) : Prop :=
  Forall (Forall (capped_request c)) (Concurrent.clients s).

Definition bounded (c : CappedCollection.t) (srv : server) : Prop :=
  length (llist (CappedCollection.key c) srv) <= Z.to_nat (CappedCollection.size c).

(** The elements the served LPUSH requests of a trace pushed, in the order
    the server served them. *)
Definition pushed (tr : list Concurrent.event) : list string :=
  omap (fun ev => match Concurrent.what ev with
                  | Single (LPUSH _ value) => Some value
                  | _ => None
                  end) tr.

(** Every client only calls [push] on the queue [q]. *)
Definition queue_pushers (q : Queue.t) (s : Concurrent.system) : Prop :=
  Forall (Forall (fun rq => exists e, sends (Queue.push q e) rq)) (Concurrent.clients s).



(** * Properties *)

(** ** The monad *)

Section Monad.
Context {A B : Type}.
Implicit Types (m : M A) (k : A -> M B) (w : world).

Lemma result_bind m k w :
  result (bind m k) w = result (k (result m w)) (after m w).
Proof. unfold result, after, bind. destruct (m w); reflexivity. Qed.

Lemma after_bind m k w :
  after (bind m k) w = after (k (result m w)) (after m w).
Proof. unfold result, after, bind. destruct (m w); reflexivity. Qed.

Lemma result_ret (a : A) w : result (ret a) w = a.
Proof. reflexivity. Qed.

Lemma after_ret (a : A) w : after (ret a) w = w.
Proof. reflexivity. Qed.
End Monad.

Ltac monad_simpl :=
  repeat first [ rewrite result_bind | rewrite after_bind
               | rewrite result_ret | rewrite after_ret ].

Lemma after_for_each_app {A} (f : A -> M unit) (xs ys : list A) (w : world) :
  after (for_each f (xs ++ ys)) w = after (for_each f ys) (after (for_each f xs) w).
Proof.
  revert w; induction xs as [|x xs IH]; intros w; simpl; [reflexivity|].
  monad_simpl. apply IH.
Qed.

(** ** The server *)

(** Case analysis on every integer comparison of the goal. *)
Ltac compare_cases :=
  repeat match goal with
         | |- context [(?a <? ?b)%Z] => destruct (Z.ltb_spec a b)
         | |- context [(?a <=? ?b)%Z] => destruct (Z.leb_spec a b)
         end.

Section Server.
Implicit Types (srv : server) (name : string) (l : list string).

Lemma llist_store name l srv : llist name (store name l srv) = l.
Proof.
  unfold llist, store; destruct l; simpl.
  - by rewrite lookup_delete_eq.
  - by rewrite lookup_insert_eq.
Qed.

Lemma llist_store_ne name name' l srv :
  name ≠ name' -> llist name' (store name l srv) = llist name' srv.
Proof.
  intros Hne. unfold llist, store; destruct l; simpl.
  - by rewrite lookup_delete_ne.
  - by rewrite lookup_insert_ne.
Qed.

Lemma absent_store name l srv : absent (store name l srv) = absent srv.
Proof. reflexivity. Qed.

Lemma store_nil_absent name srv : keyspace (store name [] srv) !! name = None.
Proof. simpl. apply lookup_delete_eq. Qed.

Lemma store_cons_present name x l srv :
  keyspace (store name (x :: l) srv) !! name = Some (x :: l).
Proof. simpl. apply lookup_insert_eq. Qed.

Lemma llist_absent name srv : keyspace srv !! name = None -> llist name srv = [].
Proof. unfold llist. by intros ->. Qed.

(** [0 .. -1] is the whole list. *)
Lemma slice_all l : slice l 0 (-1) = l.
Proof.
  unfold slice. cbv zeta. compare_cases; simpl orb; cbv iota;
    try lia; try (destruct l; simpl in *; [reflexivity | lia]).
  change (Z.to_nat 0) with 0. rewrite drop_0. apply take_ge. lia.
Qed.

(** [0 .. k-1] keeps the first [k] elements when [k] is positive. *)
Lemma slice_prefix l (k : Z) :
  (0 < k)%Z -> slice l 0 (k - 1) = take (Z.to_nat k) l.
Proof.
  intros Hk. unfold slice. cbv zeta. compare_cases; simpl orb; cbv iota;
    try lia; try (destruct l; simpl in *; [by rewrite take_nil | lia]);
    change (Z.to_nat 0) with 0; rewrite drop_0.
  - rewrite !take_ge by lia. reflexivity.
  - f_equal. lia.
Qed.
End Server.

(** ** redis-py's methods, one request each *)

Section Connection.
Implicit Types (w : world) (name : string).

Lemma after_lpush name v w :
  after (lpush name v) w =
  World (store name (v :: llist name (redis w)) (redis w))
        (wire w ++ [Single (LPUSH name v)]) (records w).
Proof. reflexivity. Qed.

Lemma after_rpush name v w :
  after (rpush name v) w =
  World (store name (llist name (redis w) ++ [v]) (redis w))
        (wire w ++ [Single (RPUSH name v)]) (records w).
Proof. reflexivity. Qed.

Lemma lpop_empty name w :
  llist name (redis w) = [] ->
  lpop name w = (None, World (redis w) (wire w ++ [Single (LPOP name)]) (records w)).
Proof.
  intros H. unfold lpop, execute_command, bind, send, serve, exec.
  rewrite H. reflexivity.
Qed.

Lemma lpop_cons name x l w :
  llist name (redis w) = x :: l ->
  lpop name w =
  (Some x, World (store name l (redis w)) (wire w ++ [Single (LPOP name)]) (records w)).
Proof.
  intros H. unfold lpop, execute_command, bind, send, serve, exec.
  rewrite H. reflexivity.
Qed.

Lemma rpop_empty name w :
  llist name (redis w) = [] ->
  rpop name w = (None, World (redis w) (wire w ++ [Single (RPOP name)]) (records w)).
Proof.
  intros H. unfold rpop, execute_command, bind, send, serve, exec.
  rewrite H. reflexivity.
Qed.

Lemma rpop_snoc name x l w :
  llist name (redis w) = l ++ [x] ->
  rpop name w =
  (Some x, World (store name l (redis w)) (wire w ++ [Single (RPOP name)]) (records w)).
Proof.
  intros H. unfold rpop, execute_command, bind, send, serve, exec.
  rewrite H, reverse_snoc, reverse_involutive. reflexivity.
Qed.

Lemma lrange_all name w :
  lrange name 0 (-1) w =
  (match keyspace (redis w) !! name with
   | None => absent_reply (absent (redis w))
   | Some l => Some l
   end,
   World (redis w) (wire w ++ [Single (LRANGE name 0 (-1))]) (records w)).
Proof.
  unfold lrange, execute_command, bind, send, serve, exec.
  destruct (keyspace (redis w) !! name); [rewrite slice_all|]; reflexivity.
Qed.
End Connection.

Lemma fresh_llist key w : fresh key w -> llist key (redis w) = [].
Proof. apply llist_absent. Qed.

Lemma result_times_S {A} (n : nat) (m : M A) (w : world) :
  result (times (S n) m) w = result m w :: result (times n m) (after m w).
Proof. simpl. monad_simpl. reflexivity. Qed.

Lemma after_times_S {A} (n : nat) (m : M A) (w : world) :
  after (times (S n) m) w = after (times n m) (after m w).
Proof. simpl. monad_simpl. reflexivity. Qed.

(** ** Queue *)

Section QueueFacts.
Variable q : Queue.t.
Let key := Queue.key q.

Lemma Queue_push_run e w :
  Queue.push q e w =
  (tt, World (store key (e :: llist key (redis w)) (redis w))
             (wire w ++ [Single (LPUSH key e)])
             (records w ++ [pushed_message e key])).
Proof. reflexivity. Qed.

Lemma Queue_pop_empty w :
  llist key (redis w) = [] ->
  Queue.pop q w =
  (None, World (redis w) (wire w ++ [Single (RPOP key)])
               (records w ++ [popped_message None key])).
Proof.
  intros H. unfold Queue.pop, bind. fold key. rewrite (rpop_empty _ _ H).
  reflexivity.
Qed.

Lemma Queue_pop_snoc x l w :
  llist key (redis w) = l ++ [x] ->
  Queue.pop q w =
  (Some x, World (store key l (redis w)) (wire w ++ [Single (RPOP key)])
                 (records w ++ [popped_message (Some x) key])).
Proof.
  intros H. unfold Queue.pop, bind. fold key. rewrite (rpop_snoc _ _ _ _ H).
  reflexivity.
Qed.

Lemma Queue_pushes xs w :
  llist key (redis (after (for_each (Queue.push q) xs) w)) =
  reverse xs ++ llist key (redis w).
Proof.
  revert w. induction xs as [|x xs IH]; intros w; simpl; [reflexivity|].
  monad_simpl. rewrite IH. unfold after. rewrite Queue_push_run. simpl snd.
  cbn [redis]. rewrite llist_store, reverse_cons, <- app_assoc. reflexivity.
Qed.

Lemma Queue_pops ys l w :
  llist key (redis w) = l ++ reverse ys ->
  result (times (length ys) (Queue.pop q)) w = Some <$> ys /\
  llist key (redis (after (times (length ys) (Queue.pop q)) w)) = l.
Proof.
  revert w. induction ys as [|y ys IH]; intros w H.
  - simpl. rewrite reverse_nil, app_nil_r in H. done.
  - rewrite reverse_cons, app_assoc in H.
    cbn [length]. rewrite result_times_S, after_times_S.
    pose proof (Queue_pop_snoc _ _ _ H) as Hpop.
    rewrite (surjective_pairing (Queue.pop q w)) in Hpop.
    injection Hpop as Hres Haft. fold (result (Queue.pop q) w) in Hres.
    fold (after (Queue.pop q) w) in Haft. rewrite Hres, Haft.
    destruct (IH (World (store key (l ++ reverse ys) (redis w))
                        (wire w ++ [Single (RPOP key)])
                        (records w ++ [popped_message (Some y) key]))) as [Hr Ha].
    { cbn [redis]. apply llist_store. }
    rewrite Hr, Ha. done.
Qed.
End QueueFacts.

(** C3. Elements pushed with [Queue.push] on a fresh key come back from
    as many [Queue.pop] calls in the order they were pushed, and the list
    is then exhausted. *)
Theorem Queue_fifo (q : Queue.t) (xs : list string) (w : world) :
  fresh (Queue.key q) w ->
  result (for_each (Queue.push q) xs ;; times (length xs) (Queue.pop q)) w
    = Some <$> xs
  /\ llist (Queue.key q)
       (redis (after (for_each (Queue.push q) xs ;; times (length xs) (Queue.pop q)) w))
     = [].
Proof.
  intros Hfresh. monad_simpl.
  apply Queue_pops. rewrite Queue_pushes, (fresh_llist _ _ Hfresh), app_nil_r.
  reflexivity.
Qed.

Lemma Queue_fifo_witness :
  let q := Queue.Make "jobs" in
  let w := World (Server EmptyMultiBulk ∅) [] [] in
  fresh (Queue.key q) w /\
  result (for_each (Queue.push q) ["a"; "b"; "c"]%string ;; times 3 (Queue.pop q)) w
  = [Some "a"; Some "b"; Some "c"]%string.
Proof.
  intros q w. split; [reflexivity|].
  apply (Queue_fifo q ["a"; "b"; "c"]%string w). reflexivity.
Defined.

(** ** Stack *)

Lemma run_eq {A} (m : M A) (w : world) (a : A) (w' : world) :
  m w = (a, w') -> result m w = a /\ after m w = w'.
Proof. unfold result, after. by intros ->. Qed.

Section StackFacts.
Variable s : Stack.t.
Let key := Stack.key s.

Lemma Stack_push_run e w :
  Stack.push s e w =
  (tt, World (store key (e :: llist key (redis w)) (redis w))
             (wire w ++ [Single (LPUSH key e)])
             (records w ++ [pushed_message e key])).
Proof. reflexivity. Qed.

Lemma Stack_pop_empty w :
  llist key (redis w) = [] ->
  Stack.pop s w =
  (None, World (redis w) (wire w ++ [Single (LPOP key)])
               (records w ++ [popped_message None key])).
Proof.
  intros H. unfold Stack.pop, bind. fold key. rewrite (lpop_empty _ _ H).
  reflexivity.
Qed.

Lemma Stack_pop_cons x l w :
  llist key (redis w) = x :: l ->
  Stack.pop s w =
  (Some x, World (store key l (redis w)) (wire w ++ [Single (LPOP key)])
                 (records w ++ [popped_message (Some x) key])).
Proof.
  intros H. unfold Stack.pop, bind. fold key. rewrite (lpop_cons _ _ _ _ H).
  reflexivity.
Qed.

Lemma Stack_pushes xs w :
  llist key (redis (after (for_each (Stack.push s) xs) w)) =
  reverse xs ++ llist key (redis w).
Proof.
  revert w. induction xs as [|x xs IH]; intros w; simpl; [reflexivity|].
  monad_simpl. rewrite IH.
  destruct (run_eq _ _ _ _ (Stack_push_run x w)) as [_ ->].
  cbn [redis]. rewrite llist_store, reverse_cons, <- app_assoc. reflexivity.
Qed.

Lemma Stack_pops ys l w :
  llist key (redis w) = ys ++ l ->
  result (times (length ys) (Stack.pop s)) w = Some <$> ys /\
  llist key (redis (after (times (length ys) (Stack.pop s)) w)) = l.
Proof.
  revert w. induction ys as [|y ys IH]; intros w H; [done|].
  cbn [length]. rewrite result_times_S, after_times_S.
  destruct (run_eq _ _ _ _ (Stack_pop_cons _ _ _ H)) as [-> ->].
  edestruct IH as [Hr Ha]; [|rewrite Hr, Ha; done].
  cbn [redis]. apply llist_store.
Qed.
End StackFacts.

(** C4. Elements pushed with [Stack.push] on a fresh key come back from as
    many [Stack.pop] calls in the reverse of the order they were pushed,
    and the list is then exhausted. *)
Theorem Stack_lifo (s : Stack.t) (xs : list string) (w : world) :
  fresh (Stack.key s) w ->
  result (for_each (Stack.push s) xs ;; times (length xs) (Stack.pop s)) w
    = Some <$> reverse xs
  /\ llist (Stack.key s)
       (redis (after (for_each (Stack.push s) xs ;; times (length xs) (Stack.pop s)) w))
     = [].
Proof.
  intros Hfresh. monad_simpl. rewrite <- (length_reverse xs).
  apply Stack_pops. rewrite Stack_pushes, (fresh_llist _ _ Hfresh).
  reflexivity.
Qed.

Lemma Stack_lifo_witness :
  let s := Stack.Make "undo" in
  let w := World (Server NullMultiBulk ∅) [] [] in
  fresh (Stack.key s) w /\
  result (for_each (Stack.push s) ["a"; "b"; "c"]%string ;; times 3 (Stack.pop s)) w
  = [Some "c"; Some "b"; Some "a"]%string.
Proof.
  intros s w. split; [reflexivity|].
  apply (Stack_lifo s ["a"; "b"; "c"]%string w). reflexivity.
Defined.

(** ** What a call leaves on the wire and in the log *)

Section Traces.
Implicit Types (w : world) (c : command).

Lemma wire_execute_command c w :
  wire (after (execute_command c) w) = wire w ++ [Single c].
Proof.
  unfold execute_command, after, bind, send, serve.
  destruct (exec c (redis w)); reflexivity.
Qed.

Lemma records_execute_command c w :
  records (after (execute_command c) w) = records w.
Proof.
  unfold execute_command, after, bind, send, serve.
  destruct (exec c (redis w)); reflexivity.
Qed.

Lemma wire_rpop name w : wire (after (rpop name) w) = wire w ++ [Single (RPOP name)].
Proof. unfold rpop. monad_simpl. apply wire_execute_command. Qed.

Lemma wire_lpop name w : wire (after (lpop name) w) = wire w ++ [Single (LPOP name)].
Proof. unfold lpop. monad_simpl. apply wire_execute_command. Qed.

Lemma records_rpop name w : records (after (rpop name) w) = records w.
Proof. unfold rpop. monad_simpl. apply records_execute_command. Qed.

Lemma records_lpop name w : records (after (lpop name) w) = records w.
Proof. unfold lpop. monad_simpl. apply records_execute_command. Qed.

(** RPOP answers with the right end of the list, LPOP with the left end. *)
Lemma result_rpop name w : result (rpop name) w = last (llist name (redis w)).
Proof.
  destruct (llist name (redis w)) as [|x l _] eqn:H using rev_ind.
  - by destruct (run_eq _ _ _ _ (rpop_empty _ _ H)) as [-> _].
  - destruct (run_eq _ _ _ _ (rpop_snoc _ _ _ _ H)) as [-> _].
    by rewrite last_snoc.
Qed.

Lemma result_lpop name w : result (lpop name) w = head (llist name (redis w)).
Proof.
  destruct (llist name (redis w)) as [|x l] eqn:H.
  - by destruct (run_eq _ _ _ _ (lpop_empty _ _ H)) as [-> _].
  - by destruct (run_eq _ _ _ _ (lpop_cons _ _ _ _ H)) as [-> _].
Qed.

(** A pop on an empty list leaves the server as it was. *)
Lemma redis_rpop_empty name w :
  llist name (redis w) = [] -> redis (after (rpop name) w) = redis w.
Proof. intros H. by destruct (run_eq _ _ _ _ (rpop_empty _ _ H)) as [_ ->]. Qed.

Lemma redis_lpop_empty name w :
  llist name (redis w) = [] -> redis (after (lpop name) w) = redis w.
Proof. intros H. by destruct (run_eq _ _ _ _ (lpop_empty _ _ H)) as [_ ->]. Qed.
End Traces.

(** [CappedCollection.push]: one MULTI/EXEC request, no log record. *)
Lemma CappedCollection_push_run (c : CappedCollection.t) (e : string) (w : world) :
  let key := CappedCollection.key c in
  let pushed := e :: llist key (redis w) in
  CappedCollection.push c e w =
  (tt, World (store key (slice pushed 0 (CappedCollection.size c - 1))
                    (store key pushed (redis w)))
             (wire w ++ [MultiExec [LPUSH key e;
                                    LTRIM key 0 (CappedCollection.size c - 1)]])
             (records w)).
Proof.
  intros key pushed.
  unfold CappedCollection.push, Pipeline.execute, bind, send, serve.
  cbn [pipeline Pipeline.lpush Pipeline.ltrim Pipeline.command_stack app].
  cbn [exec_all exec]. fold key. fold pushed.
  replace (keyspace (store key pushed (redis w)) !! key) with (Some pushed)
    by (symmetry; apply store_cons_present).
  reflexivity.
Qed.

(** The shape shared by every pop method of [qr.py]: pop, log, return. *)
Section PopShape.
Variables (p : M (option string)) (key : string).
Let pop_method : M (option string) :=
  let* popped := p in log_debug (popped_message popped key) ;; ret popped.

Lemma pop_method_result w : result pop_method w = result p w.
Proof. unfold pop_method. monad_simpl. reflexivity. Qed.

Lemma pop_method_redis w : redis (after pop_method w) = redis (after p w).
Proof. unfold pop_method. monad_simpl. reflexivity. Qed.

Lemma pop_method_wire w : wire (after pop_method w) = wire (after p w).
Proof. unfold pop_method. monad_simpl. reflexivity. Qed.

Lemma pop_method_records w :
  records (after pop_method w) =
  records (after p w) ++ [popped_message (result p w) key].
Proof. unfold pop_method. monad_simpl. reflexivity. Qed.
End PopShape.

(** ** Deque *)

(** C5. [Deque] maps its ends to the store's ends: [pushback] sends LPUSH
    and [popback] LPOP (back = left end), [pushfront] sends RPUSH and
    [popfront] RPOP (front = right end); an element pushed with [pushback]
    on a fresh key is what [popfront] returns next. *)
Theorem Deque_ends (d : Deque.t) (e : string) (w : world) :
  let key := Deque.key d in
  (wire (after (Deque.pushback d e) w) = wire w ++ [Single (LPUSH key e)] /\
   llist key (redis (after (Deque.pushback d e) w)) = e :: llist key (redis w)) /\
  (wire (after (Deque.pushfront d e) w) = wire w ++ [Single (RPUSH key e)] /\
   llist key (redis (after (Deque.pushfront d e) w)) = llist key (redis w) ++ [e]) /\
  (wire (after (Deque.popfront d) w) = wire w ++ [Single (RPOP key)] /\
   result (Deque.popfront d) w = last (llist key (redis w))) /\
  (wire (after (Deque.popback d) w) = wire w ++ [Single (LPOP key)] /\
   result (Deque.popback d) w = head (llist key (redis w))) /\
  (fresh key w -> result (Deque.pushback d e ;; Deque.popfront d) w = Some e).
Proof.
  intros key. repeat split.
  - cbn [Deque.pushback after snd redis]. apply llist_store.
  - cbn [Deque.pushfront after snd redis]. apply llist_store.
  - unfold Deque.popfront. rewrite pop_method_wire. apply wire_rpop.
  - unfold Deque.popfront. rewrite pop_method_result. apply result_rpop.
  - unfold Deque.popback. rewrite pop_method_wire. apply wire_lpop.
  - unfold Deque.popback. rewrite pop_method_result. apply result_lpop.
  - intros Hfresh. monad_simpl. unfold Deque.popfront.
    rewrite pop_method_result, result_rpop.
    change (redis (after (Deque.pushback d e) w))
      with (store key (e :: llist key (redis w)) (redis w)).
    fold key. rewrite llist_store, (fresh_llist _ _ Hfresh). reflexivity.
Qed.

Lemma Deque_ends_witness :
  let d := Deque.Make "line" in
  let w := World (Server EmptyMultiBulk ∅) [] [] in
  fresh (Deque.key d) w /\
  result (Deque.pushback d "e" ;; Deque.popfront d) w = Some "e"%string.
Proof.
  intros d w. split; [reflexivity|].
  apply (Deque_ends d "e" w). reflexivity.
Defined.

(** ** Popping where there is nothing *)

(** C6. On a key that holds nothing (never written, or popped empty) every
    pop method of the four classes returns [None]; the call is an ordinary
    return and leaves the server as it was. *)
Theorem pop_of_nothing_is_None (key : string) (size : Z) (w : world) :
  llist key (redis w) = [] ->
  (result (Deque.popfront (Deque.Make key)) w = None /\
   redis (after (Deque.popfront (Deque.Make key)) w) = redis w) /\
  (result (Deque.popback (Deque.Make key)) w = None /\
   redis (after (Deque.popback (Deque.Make key)) w) = redis w) /\
  (result (Queue.pop (Queue.Make key)) w = None /\
   redis (after (Queue.pop (Queue.Make key)) w) = redis w) /\
  (result (Stack.pop (Stack.Make key)) w = None /\
   redis (after (Stack.pop (Stack.Make key)) w) = redis w) /\
  (result (CappedCollection.pop (CappedCollection.Make key size)) w = None /\
   redis (after (CappedCollection.pop (CappedCollection.Make key size)) w) = redis w).
Proof.
  intros H.
  unfold Deque.popfront, Deque.popback, Queue.pop, Stack.pop, CappedCollection.pop.
  cbn [Deque.key Queue.key Stack.key CappedCollection.key].
  rewrite !pop_method_result, !pop_method_redis, !result_rpop, !result_lpop.
  rewrite (redis_rpop_empty _ _ H), (redis_lpop_empty _ _ H), H.
  repeat split.
Qed.

Lemma pop_of_nothing_is_None_witness :
  let w := World (Server NullMultiBulk ∅) [] [] in
  llist "k" (redis w) = [] /\
  result (CappedCollection.pop (CappedCollection.Make "k" 3)) w = None.
Proof.
  intros w. split; [reflexivity|].
  apply (pop_of_nothing_is_None "k" 3 w). reflexivity.
Defined.

(** ** Logging *)

(** C9. Every push and pop method hands [log.debug] one message naming the
    operation, the element and the key, except [CappedCollection.push],
    which logs nothing. *)
Theorem push_pop_records (key element : string) (size : Z) (w : world) :
  records (after (Deque.pushback (Deque.Make key) element) w)
    = records w ++ [pushed_message element key] /\
  records (after (Deque.pushfront (Deque.Make key) element) w)
    = records w ++ [pushed_message element key] /\
  records (after (Deque.popfront (Deque.Make key)) w)
    = records w ++ [popped_message (result (Deque.popfront (Deque.Make key)) w) key] /\
  records (after (Deque.popback (Deque.Make key)) w)
    = records w ++ [popped_message (result (Deque.popback (Deque.Make key)) w) key] /\
  records (after (Queue.push (Queue.Make key) element) w)
    = records w ++ [pushed_message element key] /\
  records (after (Queue.pop (Queue.Make key)) w)
    = records w ++ [popped_message (result (Queue.pop (Queue.Make key)) w) key] /\
  records (after (Stack.push (Stack.Make key) element) w)
    = records w ++ [pushed_message element key] /\
  records (after (Stack.pop (Stack.Make key)) w)
    = records w ++ [popped_message (result (Stack.pop (Stack.Make key)) w) key] /\
  records (after (CappedCollection.pop (CappedCollection.Make key size)) w)
    = records w ++
      [popped_message (result (CappedCollection.pop (CappedCollection.Make key size)) w) key] /\
  records (after (CappedCollection.push (CappedCollection.Make key size) element) w)
    = records w.
Proof.
  unfold Deque.popfront, Deque.popback, Queue.pop, Stack.pop, CappedCollection.pop.
  cbn [Deque.key Queue.key Stack.key CappedCollection.key].
  rewrite !pop_method_result, !pop_method_records, !records_rpop, !records_lpop.
  repeat split.
  by destruct (run_eq _ _ _ _ (CappedCollection_push_run
                                 (CappedCollection.Make key size) element w)) as [_ ->].
Qed.

(** ** Reading a key that does not exist *)

(** C10. On a key that does not exist, [Queue.elements] returns the empty
    list and [Queue.elements_as_json] its encoding, whatever the server
    answers; [Stack.elements] and [CappedCollection.elements] return the
    server's answer as it comes: [None] from a server that answers with a
    nil multi-bulk, the empty list otherwise. *)
Theorem elements_of_absent_key (key : string) (size : Z) (w : world) :
  fresh key w ->
  result (Queue.elements (Queue.Make key)) w = Some [] /\
  result (Queue.elements_as_json (Queue.Make key)) w = "[]"%string /\
  result (Stack.elements (Stack.Make key)) w
    = match absent (redis w) with NullMultiBulk => None | EmptyMultiBulk => Some [] end /\
  result (CappedCollection.elements (CappedCollection.Make key size)) w
    = match absent (redis w) with NullMultiBulk => None | EmptyMultiBulk => Some [] end.
Proof.
  intros Hfresh. unfold fresh in Hfresh.
  unfold Queue.elements, Queue.elements_as_json, Stack.elements,
    CappedCollection.elements.
  cbn [Queue.key Stack.key CappedCollection.key]. monad_simpl.
  destruct (run_eq _ _ _ _ (lrange_all key w)) as [-> _]. rewrite Hfresh.
  destruct (absent (redis w)); repeat split.
Qed.

Lemma elements_of_absent_key_witness :
  let w := World (Server NullMultiBulk ∅) [] [] in
  fresh "k" w /\
  result (Queue.elements (Queue.Make "k")) w = Some [] /\
  result (Stack.elements (Stack.Make "k")) w = None.
Proof.
  intros w. split; [reflexivity|].
  pose proof (elements_of_absent_key "k" 0 w eq_refl) as (Hq & _ & Hs & _).
  split; [exact Hq | exact Hs].
Defined.

(** ** CappedCollection *)

Lemma take_app_take {A} (k : nat) (a b : list A) :
  take k (a ++ take k b) = take k (a ++ b).
Proof.
  rewrite !take_app, take_take. do 2 f_equal. lia.
Qed.

Section CappedFacts.
Variable c : CappedCollection.t.
Let key := CappedCollection.key c.
Let k := Z.to_nat (CappedCollection.size c).
Hypothesis positive : (0 < CappedCollection.size c)%Z.

Lemma capped_lookup_after_push e w :
  keyspace (redis (after (CappedCollection.push c e) w)) !! key
  = Some (take k (e :: llist key (redis w))).
Proof.
  destruct (run_eq _ _ _ _ (CappedCollection_push_run c e w)) as [_ ->].
  cbn [redis]. fold key. rewrite slice_prefix by exact positive. fold k.
  destruct k as [|k'] eqn:Hk; [lia|].
  cbn [take]. apply store_cons_present.
Qed.

Lemma capped_llist_after_push e w :
  llist key (redis (after (CappedCollection.push c e) w))
  = take k (e :: llist key (redis w)).
Proof. unfold llist at 1. by rewrite capped_lookup_after_push. Qed.

Lemma capped_length_after_push e w :
  length (llist key (redis (after (CappedCollection.push c e) w))) <= k.
Proof. rewrite capped_llist_after_push, length_take. lia. Qed.

Lemma capped_pushes xs w :
  length (llist key (redis w)) <= k ->
  llist key (redis (after (for_each (CappedCollection.push c) xs) w))
  = take k (reverse xs ++ llist key (redis w)).
Proof.
  revert w. induction xs as [|x xs IH]; intros w Hlen.
  - simpl. symmetry. apply take_ge. exact Hlen.
  - cbn [for_each]. monad_simpl.
    rewrite IH by apply capped_length_after_push.
    rewrite capped_llist_after_push, take_app_take, reverse_cons, <- app_assoc.
    reflexivity.
Qed.

Lemma capped_elements w :
  result (CappedCollection.elements c) w
  = match keyspace (redis w) !! key with
    | None => absent_reply (absent (redis w))
    | Some l => Some l
    end.
Proof.
  unfold CappedCollection.elements. monad_simpl.
  by destruct (run_eq _ _ _ _ (lrange_all (CappedCollection.key c) w)) as [-> _].
Qed.
End CappedFacts.

(** C1. With a positive capacity [k] and a fresh key, after pushing [xs]
    one element at a time the list holds the [k] most recently pushed
    elements, most recent first; its length is [min (length xs) k];
    [elements()] returns exactly that list once something was pushed (with
    no push at all the key does not exist and [elements()] is the server's
    answer for an absent key); and after any push, from any state, the
    list is no longer than [k]. *)
Theorem CappedCollection_keeps_most_recent
    (c : CappedCollection.t) (xs : list string) (w : world) :
  (0 < CappedCollection.size c)%Z ->
  fresh (CappedCollection.key c) w ->
  let key := CappedCollection.key c in
  let k := Z.to_nat (CappedCollection.size c) in
  let w' := after (for_each (CappedCollection.push c) xs) w in
  llist key (redis w') = take k (reverse xs) /\
  length (take k (reverse xs)) = min (length xs) k /\
  result (CappedCollection.elements c) w'
    = match xs with
      | [] => absent_reply (absent (redis w))
      | _ :: _ => Some (take k (reverse xs))
      end /\
  (forall e w0, length (llist key (redis (after (CappedCollection.push c e) w0))) <= k).
Proof.
  intros Hpos Hfresh key k w'. subst key k w'.
  assert (Hl : llist (CappedCollection.key c)
                 (redis (after (for_each (CappedCollection.push c) xs) w))
               = take (Z.to_nat (CappedCollection.size c)) (reverse xs)).
  { rewrite capped_pushes.
    - by rewrite (fresh_llist _ _ Hfresh), app_nil_r.
    - exact Hpos.
    - rewrite (fresh_llist _ _ Hfresh). simpl. lia. }
  split; [exact Hl|]. split; [|split].
  - rewrite length_take, length_reverse. lia.
  - rewrite capped_elements.
    destruct xs as [|x xs _] using rev_ind.
    + simpl. by rewrite Hfresh.
    + rewrite <- Hl. rewrite after_for_each_app. cbn [for_each]. monad_simpl.
      rewrite capped_lookup_after_push, capped_llist_after_push by exact Hpos.
      by destruct (xs ++ [x]) eqn:E; [destruct xs|].
  - intros e w0. by apply capped_length_after_push.
Qed.

Lemma CappedCollection_keeps_most_recent_witness :
  let c := CappedCollection.Make "k" 3 in
  let w := World (Server NullMultiBulk ∅) [] [] in
  ((0 < CappedCollection.size c)%Z /\ fresh (CappedCollection.key c) w) /\
  result (CappedCollection.elements c)
         (after (for_each (CappedCollection.push c) ["a"; "b"; "c"; "d"]%string) w)
  = Some ["d"; "c"; "b"]%string.
Proof.
  intros c w. split; [split; reflexivity|].
  pose proof (CappedCollection_keeps_most_recent
                c ["a"; "b"; "c"; "d"]%string w eq_refl eq_refl)
    as (_ & _ & H & _).
  exact H.
Defined.

(** C8. With capacity 0 the trim is [LTRIM key 0 -1], which keeps the whole
    list: every push stays, nothing is trimmed away. *)
Theorem CappedCollection_size_zero_keeps_all (key : string) (xs : list string) (w : world) :
  llist key (redis (after (for_each (CappedCollection.push (CappedCollection.Make key 0)) xs) w))
  = reverse xs ++ llist key (redis w).
Proof.
  revert w. induction xs as [|x xs IH]; intros w; [reflexivity|].
  cbn [for_each]. monad_simpl. rewrite IH.
  destruct (run_eq _ _ _ _ (CappedCollection_push_run (CappedCollection.Make key 0) x w))
    as [_ ->].
  cbn [redis CappedCollection.key CappedCollection.size].
  change (0 - 1)%Z with (-1)%Z.
  rewrite slice_all, llist_store, reverse_cons, <- app_assoc. reflexivity.
Qed.

Example CappedCollection_size_zero_after_one_push :
  result (CappedCollection.push (CappedCollection.Make "k" 0) "a" ;;
          CappedCollection.elements (CappedCollection.Make "k" 0))
         (World (Server EmptyMultiBulk ∅) [] [])
  = Some ["a"%string].
Proof. vm_compute. reflexivity. Qed.

(** ** JSON: decoding what was encoded *)

Section JsonFacts.
Import Json.

Lemma append_empty_r (s : string) : (s +:+ EmptyString)%string = s.
Proof.
  induction s as [|c s IH]; [reflexivity|].
  change (String c (s +:+ EmptyString) = String c s). by rewrite IH.
Qed.

Lemma append_assoc (s t u : string) :
  ((s +:+ t) +:+ u)%string = (s +:+ (t +:+ u))%string.
Proof.
  induction s as [|c s IH]; [reflexivity|].
  change (String c ((s +:+ t) +:+ u) = String c (s +:+ (t +:+ u))). by rewrite IH.
Qed.

(** One escaped character is read back as that character. *)
Lemma scan_escape (c : ascii) (cur : string) (acc : list string) (rest : string) :
  scan (Chars cur) acc (escape c +:+ rest) = scan (Chars (snoc cur c)) acc rest.
Proof.
  destruct c as [b0 b1 b2 b3 b4 b5 b6 b7].
  destruct b0, b1, b2, b3, b4, b5, b6, b7; reflexivity.
Qed.

Lemma scan_escape_all (s cur : string) (acc : list string) (rest : string) :
  scan (Chars cur) acc (escape_all s +:+ rest) = scan (Chars (cur +:+ s)) acc rest.
Proof.
  revert cur. induction s as [|c s IH]; intros cur.
  - by rewrite append_empty_r.
  - cbn [escape_all]. rewrite append_assoc, scan_escape, IH.
    unfold snoc. by rewrite append_assoc.
Qed.

Lemma scan_encode_string (s : string) (acc : list string) (rest : string) :
  scan Elem acc (encode_string s +:+ rest) = scan Next (acc ++ [s]) rest.
Proof.
  unfold encode_string.
  transitivity (scan (Chars EmptyString) acc
                     ((escape_all s +:+ String quote EmptyString) +:+ rest));
    [reflexivity|].
  rewrite append_assoc, scan_escape_all. reflexivity.
Qed.

Lemma scan_join (x : string) (l acc : list string) :
  scan Elem acc (join (encode_string <$> x :: l) +:+ "]") = Some (acc ++ x :: l).
Proof.
  revert x acc. induction l as [|y l IH]; intros x acc.
  - cbn [fmap list_fmap join]. rewrite scan_encode_string. reflexivity.
  - change (join (encode_string <$> x :: y :: l))
      with (encode_string x +:+ ", " +:+ join (encode_string <$> y :: l))%string.
    rewrite !append_assoc, scan_encode_string.
    change (scan Next (acc ++ [x]) (", " +:+ join (encode_string <$> y :: l) +:+ "]"))
      with (scan Elem (acc ++ [x]) (join (encode_string <$> y :: l) +:+ "]")).
    rewrite IH, <- app_assoc. reflexivity.
Qed.

Lemma scan_open_join (x : string) (l acc : list string) :
  scan Open acc (join (encode_string <$> x :: l) +:+ "]")
  = scan Elem acc (join (encode_string <$> x :: l) +:+ "]").
Proof. destruct l; reflexivity. Qed.

Lemma loads_dumps (v : option (list string)) : loads (dumps v) = Some v.
Proof.
  destruct v as [[|x l]|]; [reflexivity | | reflexivity].
  unfold dumps.
  transitivity (Some <$> scan Open [] (join (encode_string <$> x :: l) +:+ "]"));
    [reflexivity|].
  rewrite scan_open_join, scan_join. reflexivity.
Qed.
End JsonFacts.




(** The array is spelled out: a bracketed, comma-separated row of quoted
    strings. *)
Example elements_as_json_of_three :
  result (for_each (CappedCollection.push (CappedCollection.Make "k" 3))
                   ["a"; "b"; "c"; "d"]%string ;;
          CappedCollection.elements_as_json (CappedCollection.Make "k" 3))
         (World (Server EmptyMultiBulk ∅) [] [])
  = (String "[" (String Json.quote (String "d" (String Json.quote
      (String "," (String " " (String Json.quote (String "c" (String Json.quote
      (String "," (String " " (String Json.quote (String "b" (String Json.quote
      (String "]" EmptyString))))))))))))))).
Proof. vm_compute. reflexivity. Qed.

(** ** Concurrent pushes on a capped collection *)

Lemma redis_after_send (rq : request) (w : world) :
  redis (after (send rq) w) = snd (serve rq (redis w)).
Proof. unfold after, send. destruct (serve rq (redis w)); reflexivity. Qed.

Lemma sends_functional {A} (m : M A) (rq rq' : request) :
  sends m rq -> sends m rq' -> rq = rq'.
Proof.
  intros H H'. specialize (H (World (Server EmptyMultiBulk ∅) [] [])).
  rewrite H' in H. simpl in H. congruence.
Qed.

Section CappedRequests.
Variable c : CappedCollection.t.
Let key := CappedCollection.key c.
Let size := CappedCollection.size c.

Lemma push_sends e : sends (CappedCollection.push c e) (push_batch c e).
Proof.
  intros w. by destruct (run_eq _ _ _ _ (CappedCollection_push_run c e w)) as [_ ->].
Qed.

Lemma pop_sends : sends (CappedCollection.pop c) (Single (RPOP key)).
Proof.
  intros w. unfold CappedCollection.pop. rewrite pop_method_wire. apply wire_rpop.
Qed.

Lemma elements_sends :
  sends (CappedCollection.elements c) (Single (LRANGE key 0 (-1))).
Proof.
  intros w. unfold CappedCollection.elements. monad_simpl.
  by destruct (run_eq _ _ _ _ (lrange_all (CappedCollection.key c) w)) as [_ ->].
Qed.

Lemma elements_as_json_sends :
  sends (CappedCollection.elements_as_json c) (Single (LRANGE key 0 (-1))).
Proof.
  intros w. unfold CappedCollection.elements_as_json. monad_simpl.
  by destruct (run_eq _ _ _ _ (lrange_all (CappedCollection.key c) w)) as [_ ->].
Qed.

Lemma capped_request_inv rq :
  capped_request c rq ->
  (exists e, rq = push_batch c e) \/ rq = Single (RPOP key)
  \/ rq = Single (LRANGE key 0 (-1)).
Proof.
  intros [e H|H|H|H].
  - left. exists e. exact (sends_functional _ _ _ H (push_sends e)).
  - right; left. exact (sends_functional _ _ _ H pop_sends).
  - right; right. exact (sends_functional _ _ _ H elements_sends).
  - right; right. exact (sends_functional _ _ _ H elements_as_json_sends).
Qed.

Lemma push_request_inv rq : push_request c rq -> exists e, rq = push_batch c e.
Proof.
  intros [e H]. exists e. exact (sends_functional _ _ _ H (push_sends e)).
Qed.

Hypothesis positive : (0 < size)%Z.

(** The batch as a whole brings the list within bounds, from any state. *)
Lemma serve_push_bounded e srv0 : bounded c (snd (serve (push_batch c e) srv0)).
Proof.
  pose proof (capped_length_after_push c positive e (World srv0 [] [])) as H.
  unfold CappedCollection.push in H. rewrite after_bind, after_ret in H.
  unfold Pipeline.execute in H. rewrite redis_after_send in H. exact H.
Qed.

Lemma serve_rpop_bounded srv0 :
  bounded c srv0 -> bounded c (snd (serve (Single (RPOP key)) srv0)).
Proof.
  unfold bounded. fold key. intros H. cbn [serve exec].
  destruct (llist key srv0) as [|x l _] eqn:E using rev_ind.
  - rewrite reverse_nil. cbn [snd]. by rewrite E.
  - rewrite reverse_snoc, reverse_involutive. cbn [snd].
    rewrite llist_store. rewrite length_app in H. simpl in H. lia.
Qed.

Lemma serve_lrange_same srv0 start stop :
  snd (serve (Single (LRANGE key start stop)) srv0) = srv0.
Proof. cbn [serve exec]. by destruct (keyspace srv0 !! key). Qed.

Lemma serve_capped_bounded rq srv0 :
  capped_request c rq -> bounded c srv0 -> bounded c (snd (serve rq srv0)).
Proof.
  intros Hrq Hb. destruct (capped_request_inv rq Hrq) as [[e ->]|[->| ->]].
  - apply serve_push_bounded.
  - by apply serve_rpop_bounded.
  - by rewrite serve_lrange_same.
Qed.
End CappedRequests.

Section Interleavings.
Import Concurrent.
Variable c : CappedCollection.t.
Hypothesis positive : (0 < CappedCollection.size c)%Z.

Lemma step_capped s ev s' :
  capped_clients c s -> step s ev s' ->
  capped_clients c s' /\ capped_request c (what ev) /\
  seen ev = srv s' /\ srv s' = snd (serve (what ev) (srv s)).
Proof.
  intros Hcl Hstep. destruct Hstep as [i rq rest srv0 cls rs srv1 Hi Hserve].
  unfold capped_clients in *. cbn [clients srv what seen] in *.
  pose proof (Forall_lookup_1 _ _ _ _ Hcl Hi) as Hreqs.
  apply Forall_cons in Hreqs as [Hrq Hrest].
  repeat split; [by apply Forall_insert | exact Hrq | by rewrite Hserve].
Qed.

Lemma step_bounded s ev s' :
  capped_clients c s -> step s ev s' -> bounded c (srv s) -> bounded c (srv s').
Proof.
  intros Hcl Hstep Hb. destruct (step_capped _ _ _ Hcl Hstep) as (_ & Hrq & _ & ->).
  by apply serve_capped_bounded.
Qed.

Lemma step_push_bounded s ev s' :
  capped_clients c s -> step s ev s' -> push_request c (what ev) ->
  bounded c (srv s').
Proof.
  intros Hcl Hstep Hpush. destruct (step_capped _ _ _ Hcl Hstep) as (_ & _ & _ & ->).
  destruct (push_request_inv c _ Hpush) as [e ->]. by apply serve_push_bounded.
Qed.

Lemma run_capped s tr s' : run s tr s' -> capped_clients c s -> capped_clients c s'.
Proof.
  induction 1 as [|s ev s1 tr s2 Hstep _ IH]; intros Hcl; [exact Hcl|].
  apply IH. by destruct (step_capped _ _ _ Hcl Hstep).
Qed.

Lemma run_bounded s tr s' :
  run s tr s' -> capped_clients c s -> bounded c (srv s) ->
  Forall (fun ev => bounded c (seen ev)) tr.
Proof.
  induction 1 as [|s ev s1 tr s2 Hstep _ IH]; intros Hcl Hb; [constructor|].
  pose proof (step_bounded _ _ _ Hcl Hstep Hb) as Hb1.
  destruct (step_capped _ _ _ Hcl Hstep) as (Hcl1 & _ & Hseen & _).
  constructor; [by rewrite Hseen | by apply IH].
Qed.

Lemma run_split s pre ev post s' :
  run s (pre ++ ev :: post) s' ->
  exists s1 s2, run s pre s1 /\ step s1 ev s2 /\ run s2 post s'.
Proof.
  revert s. induction pre as [|ev0 pre IH]; intros s Hrun.
  - inversion Hrun; subst. eexists _, _. split; [constructor|]. split; eassumption.
  - inversion Hrun as [|? ? s0 ? ? Hstep Hrest]; subst.
    destruct (IH _ Hrest) as (s1 & s2 & Hpre & Hev & Hpost).
    exists s1, s2. split; [econstructor; eassumption|]. by split.
Qed.

(** What [elements()] returns to a reader is never longer than the list. *)
Lemma elements_length w l :
  result (CappedCollection.elements c) w = Some l ->
  length l <= length (llist (CappedCollection.key c) (redis w)).
Proof.
  rewrite capped_elements. unfold llist.
  destruct (keyspace (redis w) !! CappedCollection.key c) as [l'|].
  - intros [= ->]. done.
  - destruct (absent (redis w)); [done|]. intros [= <-]. simpl. lia.
Qed.
End Interleavings.

(** C2. [CappedCollection.push] sends its LPUSH and LTRIM as one MULTI/EXEC
    request, which the server serves as a unit, so no client can see the
    push without the trim.  Hence, with clients that call methods of the
    capped collection concurrently on one key, in whatever order the
    server serves their requests: once a push has been served, every state
    a client can observe holds at most [k] elements under the key, and so
    does every list [elements()] reads from it (for a positive capacity
    [k]). *)
Theorem CappedCollection_push_atomic
    (c : CappedCollection.t) (s s' : Concurrent.system)
    (pre post : list Concurrent.event) (ev ev' : Concurrent.event) :
  (0 < CappedCollection.size c)%Z ->
  capped_clients c s ->
  Concurrent.run s (pre ++ ev :: post) s' ->
  push_request c (Concurrent.what ev) ->
  ev' ∈ ev :: post ->
  (forall e, sends (CappedCollection.push c e)
               (MultiExec [LPUSH (CappedCollection.key c) e;
                           LTRIM (CappedCollection.key c) 0 (CappedCollection.size c - 1)])) /\
  length (llist (CappedCollection.key c) (Concurrent.seen ev'))
    <= Z.to_nat (CappedCollection.size c) /\
  (forall w l, redis w = Concurrent.seen ev' ->
               result (CappedCollection.elements c) w = Some l ->
               length l <= Z.to_nat (CappedCollection.size c)).
Proof.
  intros Hpos Hcl Hrun Hpush Hin.
  split; [exact (push_sends c)|].
  assert (Hb : bounded c (Concurrent.seen ev')).
  { destruct (run_split _ _ _ _ _ Hrun) as (s1 & s2 & Hpre & Hev & Hpost).
    pose proof (run_capped c _ _ _ Hpre Hcl) as Hcl1.
    pose proof (step_push_bounded c Hpos _ _ _ Hcl1 Hev Hpush) as Hb2.
    destruct (step_capped c _ _ _ Hcl1 Hev) as (Hcl2 & _ & Hseen & _).
    apply elem_of_cons in Hin as [->|Hin]; [by rewrite Hseen|].
    pose proof (run_bounded c Hpos _ _ _ Hpost Hcl2 Hb2) as Hall.
    rewrite Forall_forall in Hall. by apply Hall. }
  split; [exact Hb|].
  intros w l Hw Hl. pose proof (elements_length c w l Hl) as Hlen.
  rewrite Hw in Hlen. unfold bounded in Hb. lia.
Qed.

Lemma CappedCollection_push_atomic_witness :
  let c := CappedCollection.Make "k" 1 in
  let srv0 := Server EmptyMultiBulk ∅ in
  let srv1 := snd (serve (push_batch c "b") srv0) in
  let srv2 := snd (serve (push_batch c "a") srv1) in
  let s := Concurrent.System srv0 [[push_batch c "a"]; [push_batch c "b"]] in
  let s' := Concurrent.System srv2 [[]; []] in
  let ev := Concurrent.Event 1 (push_batch c "b") (fst (serve (push_batch c "b") srv0)) srv1 in
  let ev' := Concurrent.Event 0 (push_batch c "a") (fst (serve (push_batch c "a") srv1)) srv2 in
  ((0 < CappedCollection.size c)%Z /\ capped_clients c s /\
   Concurrent.run s ([] ++ ev :: [ev']) s' /\
   push_request c (Concurrent.what ev) /\ ev' ∈ ev :: [ev']) /\
  length (llist (CappedCollection.key c) (Concurrent.seen ev')) <= 1.
Proof.
  intros c srv0 srv1 srv2 s s' ev ev'.
  assert (Hpos : (0 < CappedCollection.size c)%Z) by reflexivity.
  assert (Hcl : capped_clients c s).
  { constructor; [|constructor; [|constructor]];
      (constructor; [eapply by_push; apply push_sends | constructor]). }
  assert (Hrun : Concurrent.run s ([] ++ ev :: [ev']) s').
  { eapply Concurrent.run_step.
    - exact (Concurrent.step_serve 1 (push_batch c "b") [] srv0
               [[push_batch c "a"]; [push_batch c "b"]] _ _
               eq_refl (surjective_pairing _)).
    - eapply Concurrent.run_step; [|apply Concurrent.run_done].
      exact (Concurrent.step_serve 0 (push_batch c "a") [] srv1
               [[push_batch c "a"]; []] _ _
               eq_refl (surjective_pairing _)). }
  assert (Hpush : push_request c (Concurrent.what ev)).
  { exists "b"%string. apply push_sends. }
  assert (Hin : ev' ∈ ev :: [ev']) by (apply elem_of_cons; right; apply elem_of_cons; by left).
  split; [by repeat split|].
  exact (proj1 (proj2 (CappedCollection_push_atomic
                         c s s' [] [ev'] ev ev' Hpos Hcl Hrun Hpush Hin))).
Defined.

(** Were the two commands sent one by one, a reader served in between
    would see the list one element too long: here capacity 1, two elements. *)
Example unbatched_push_is_observable :
  let srv0 := store "k" ["a"%string] (Server EmptyMultiBulk ∅) in
  let pusher := [Single (LPUSH "k" "b"); Single (LTRIM "k" 0 (1 - 1))] in
  let reader := [Single (LRANGE "k" 0 (-1))] in
  exists tr s',
    Concurrent.run (Concurrent.System srv0 [pusher; reader]) tr s' /\
    Concurrent.answer <$> tr
    = [[Integer 2]; [MultiBulk (Some ["b"; "a"]%string)]; [Status]].
Proof.
  intros srv0 pusher reader. eexists _, _. split.
  - eapply Concurrent.run_step.
    { exact (Concurrent.step_serve 0 _ _ srv0 [pusher; reader] _ _
               eq_refl (surjective_pairing _)). }
    eapply Concurrent.run_step.
    { exact (Concurrent.step_serve 1 _ _ _ [_; reader] _ _
               eq_refl (surjective_pairing _)). }
    eapply Concurrent.run_step; [|apply Concurrent.run_done].
    exact (Concurrent.step_serve 0 _ _ _ [[_]; []] _ _
             eq_refl (surjective_pairing _)).
  - vm_compute. reflexivity.
Qed.


(** * Further properties of the four classes *)

(** ** Sequences of pushes and pops at either end *)

Section PushSequences.
Variables (push : string -> M unit) (key : string).

Lemma left_pushes xs w :
  (forall e w, llist key (redis (after (push e) w)) = e :: llist key (redis w)) ->
  llist key (redis (after (for_each push xs) w)) = reverse xs ++ llist key (redis w).
Proof.
  intros Hpush. revert w. induction xs as [|x xs IH]; intros w; [reflexivity|].
  cbn [for_each]. monad_simpl. rewrite IH, Hpush, reverse_cons, <- app_assoc.
  reflexivity.
Qed.

Lemma right_pushes xs w :
  (forall e w, llist key (redis (after (push e) w)) = llist key (redis w) ++ [e]) ->
  llist key (redis (after (for_each push xs) w)) = llist key (redis w) ++ xs.
Proof.
  intros Hpush. revert w. induction xs as [|x xs IH]; intros w.
  - simpl. by rewrite app_nil_r.
  - cbn [for_each]. monad_simpl. rewrite IH, Hpush, <- app_assoc. reflexivity.
Qed.
End PushSequences.

Section PopSequences.
Variables (pop : M (option string)) (key : string).

(** Popping at the right end until nothing is left, and [j] times more. *)
Lemma right_pops ys j w :
  (forall w, result pop w = last (llist key (redis w))) ->
  (forall w l x, llist key (redis w) = l ++ [x] -> llist key (redis (after pop w)) = l) ->
  (forall w, llist key (redis w) = [] -> llist key (redis (after pop w)) = []) ->
  llist key (redis w) = reverse ys ->
  result (times (length ys + j) pop) w = (Some <$> ys) ++ replicate j None /\
  llist key (redis (after (times (length ys + j) pop) w)) = [].
Proof.
  intros Hres Hsnoc Hnil. revert w. induction ys as [|y ys IH]; intros w H.
  - rewrite reverse_nil in H. cbn [length Nat.add fmap list_fmap app].
    revert w H. induction j as [|j IHj]; intros w H; [done|].
    rewrite result_times_S, after_times_S, Hres, H.
    destruct (IHj (after pop w) (Hnil w H)) as [-> ->]. done.
  - rewrite reverse_cons in H. cbn [length Nat.add].
    rewrite result_times_S, after_times_S, Hres, H, last_snoc.
    destruct (IH (after pop w) (Hsnoc w _ _ H)) as [-> ->]. done.
Qed.

(** The same at the left end. *)
Lemma left_pops ys j w :
  (forall w, result pop w = head (llist key (redis w))) ->
  (forall w l x, llist key (redis w) = x :: l -> llist key (redis (after pop w)) = l) ->
  (forall w, llist key (redis w) = [] -> llist key (redis (after pop w)) = []) ->
  llist key (redis w) = ys ->
  result (times (length ys + j) pop) w = (Some <$> ys) ++ replicate j None /\
  llist key (redis (after (times (length ys + j) pop) w)) = [].
Proof.
  intros Hres Hcons Hnil. revert w. induction ys as [|y ys IH]; intros w H.
  - cbn [length Nat.add fmap list_fmap app].
    revert w H. induction j as [|j IHj]; intros w H; [done|].
    rewrite result_times_S, after_times_S, Hres, H.
    destruct (IHj (after pop w) (Hnil w H)) as [-> ->]. done.
  - cbn [length Nat.add].
    rewrite result_times_S, after_times_S, Hres, H.
    destruct (IH (after pop w) (Hcons w _ _ H)) as [-> ->]. done.
Qed.
End PopSequences.

Section EndsOfTheList.
Implicit Types (w : world) (name : string).

Lemma rpop_llist_snoc name w l x :
  llist name (redis w) = l ++ [x] -> llist name (redis (after (rpop name) w)) = l.
Proof.
  intros H. destruct (run_eq _ _ _ _ (rpop_snoc _ _ _ _ H)) as [_ ->].
  apply llist_store.
Qed.

Lemma rpop_llist_nil name w :
  llist name (redis w) = [] -> llist name (redis (after (rpop name) w)) = [].
Proof. intros H. by rewrite redis_rpop_empty. Qed.

Lemma lpop_llist_cons name w l x :
  llist name (redis w) = x :: l -> llist name (redis (after (lpop name) w)) = l.
Proof.
  intros H. destruct (run_eq _ _ _ _ (lpop_cons _ _ _ _ H)) as [_ ->].
  apply llist_store.
Qed.

Lemma lpop_llist_nil name w :
  llist name (redis w) = [] -> llist name (redis (after (lpop name) w)) = [].
Proof. intros H. by rewrite redis_lpop_empty. Qed.

Lemma lpush_llist name e w :
  llist name (redis (after (lpush name e) w)) = e :: llist name (redis w).
Proof. rewrite after_lpush. apply llist_store. Qed.

Lemma rpush_llist name e w :
  llist name (redis (after (rpush name e) w)) = llist name (redis w) ++ [e].
Proof. rewrite after_rpush. apply llist_store. Qed.
End EndsOfTheList.

(** Every pop method is pop-log-return, every plain push method push-log. *)
Ltac pop_shape :=
  unfold Deque.popfront, Deque.popback, Queue.pop, Stack.pop, CappedCollection.pop;
  rewrite ?pop_method_result, ?pop_method_redis, ?pop_method_wire,
    ?pop_method_records.

Ltac push_shape :=
  unfold Deque.pushback, Deque.pushfront, Queue.push, Stack.push;
  rewrite ?after_bind.

Lemma redis_log_debug msg w : redis (after (log_debug msg) w) = redis w.
Proof. reflexivity. Qed.

(** X1. Whatever the list holds, a queue drains in arrival order: after
    pushing [xs] onto a list [l], the pops return the elements of [l] from
    its right end, then [xs] in push order, then [None] for ever. *)
Theorem Queue_drains_in_arrival_order
    (q : Queue.t) (xs : list string) (j : nat) (w : world) :
  let l := llist (Queue.key q) (redis w) in
  result (for_each (Queue.push q) xs ;;
          times (length (reverse l ++ xs) + j) (Queue.pop q)) w
  = (Some <$> reverse l ++ xs) ++ replicate j None.
Proof.
  intros l. rewrite result_bind.
  apply (right_pops (Queue.pop q) (Queue.key q)).
  - intros w0. pop_shape. apply result_rpop.
  - intros w0 l0 x. pop_shape. apply rpop_llist_snoc.
  - intros w0. pop_shape. apply rpop_llist_nil.
  - rewrite (left_pushes (Queue.push q) (Queue.key q)).
    + by rewrite reverse_app, reverse_involutive.
    + intros e w0. push_shape. rewrite redis_log_debug. apply lpush_llist.
Qed.

(** X2. A stack drains newest first: after pushing [xs] onto a list [l],
    the pops return [xs] in reverse push order, then [l] from its left
    end, then [None] for ever. *)
Theorem Stack_drains_newest_first
    (s : Stack.t) (xs : list string) (j : nat) (w : world) :
  let l := llist (Stack.key s) (redis w) in
  result (for_each (Stack.push s) xs ;;
          times (length (reverse xs ++ l) + j) (Stack.pop s)) w
  = (Some <$> reverse xs ++ l) ++ replicate j None.
Proof.
  intros l. rewrite result_bind.
  apply (left_pops (Stack.pop s) (Stack.key s)).
  - intros w0. pop_shape. apply result_lpop.
  - intros w0 l0 x. pop_shape. apply lpop_llist_cons.
  - intros w0. pop_shape. apply lpop_llist_nil.
  - apply (left_pushes (Stack.push s) (Stack.key s)).
    intros e w0. push_shape. rewrite redis_log_debug. apply lpush_llist.
Qed.

(** ** Deque, both ways round *)

Section DequeFacts.
Variable d : Deque.t.
Let key := Deque.key d.

Lemma Deque_pushback_llist e w :
  llist key (redis (after (Deque.pushback d e) w)) = e :: llist key (redis w).
Proof. push_shape. rewrite redis_log_debug. apply lpush_llist. Qed.

Lemma Deque_pushfront_llist e w :
  llist key (redis (after (Deque.pushfront d e) w)) = llist key (redis w) ++ [e].
Proof. push_shape. rewrite redis_log_debug. apply rpush_llist. Qed.

Lemma Deque_popfronts ys j w :
  llist key (redis w) = reverse ys ->
  result (times (length ys + j) (Deque.popfront d)) w
  = (Some <$> ys) ++ replicate j None.
Proof.
  intros H. apply (right_pops (Deque.popfront d) key); [| | |exact H].
  - intros w0. pop_shape. apply result_rpop.
  - intros w0 l0 x. pop_shape. apply rpop_llist_snoc.
  - intros w0. pop_shape. apply rpop_llist_nil.
Qed.

Lemma Deque_popbacks ys j w :
  llist key (redis w) = ys ->
  result (times (length ys + j) (Deque.popback d)) w
  = (Some <$> ys) ++ replicate j None.
Proof.
  intros H. apply (left_pops (Deque.popback d) key); [| | |exact H].
  - intros w0. pop_shape. apply result_lpop.
  - intros w0 l0 x. pop_shape. apply lpop_llist_cons.
  - intros w0. pop_shape. apply lpop_llist_nil.
Qed.
End DequeFacts.

(** X3. Pushed at one end and popped at the other, a deque is a queue in
    both directions, from any state: the elements already in the list come
    out first, then the pushed ones in push order, then [None]. *)
Theorem Deque_opposite_ends_fifo
    (d : Deque.t) (xs : list string) (j : nat) (w : world) :
  let l := llist (Deque.key d) (redis w) in
  result (for_each (Deque.pushback d) xs ;;
          times (length (reverse l ++ xs) + j) (Deque.popfront d)) w
    = (Some <$> reverse l ++ xs) ++ replicate j None /\
  result (for_each (Deque.pushfront d) xs ;;
          times (length (l ++ xs) + j) (Deque.popback d)) w
    = (Some <$> l ++ xs) ++ replicate j None.
Proof.
  intros l. rewrite !result_bind. split.
  - apply Deque_popfronts.
    rewrite (left_pushes _ _ _ _ (Deque_pushback_llist d)).
    by rewrite reverse_app, reverse_involutive.
  - apply Deque_popbacks. apply (right_pushes _ _ _ _ (Deque_pushfront_llist d)).
Qed.

(** X4. Pushed and popped at the same end, a deque is a stack at either
    end, from any state: the pushed elements come out in reverse push
    order, then the elements already in the list from that end on, then
    [None]. *)
Theorem Deque_same_end_lifo
    (d : Deque.t) (xs : list string) (j : nat) (w : world) :
  let l := llist (Deque.key d) (redis w) in
  result (for_each (Deque.pushback d) xs ;;
          times (length (reverse xs ++ l) + j) (Deque.popback d)) w
    = (Some <$> reverse xs ++ l) ++ replicate j None /\
  result (for_each (Deque.pushfront d) xs ;;
          times (length (reverse xs ++ reverse l) + j) (Deque.popfront d)) w
    = (Some <$> reverse xs ++ reverse l) ++ replicate j None.
Proof.
  intros l. rewrite !result_bind. split.
  - apply Deque_popbacks. apply (left_pushes _ _ _ _ (Deque_pushback_llist d)).
  - apply Deque_popfronts.
    rewrite (right_pushes _ _ _ _ (Deque_pushfront_llist d)).
    by rewrite reverse_app, !reverse_involutive.
Qed.

(** ** Reading the list *)

Lemma store_lookup_nonempty name l srv :
  l <> [] -> keyspace (store name l srv) !! name = Some l.
Proof. destruct l; [done|]. intros _. apply store_cons_present. Qed.

Lemma lookup_store_ne name name' l srv :
  name <> name' -> keyspace (store name l srv) !! name' = keyspace srv !! name'.
Proof.
  intros Hne. unfold store; destruct l; simpl.
  - by rewrite lookup_delete_ne.
  - by rewrite lookup_insert_ne.
Qed.

Lemma result_lrange_all name w :
  result (lrange name 0 (-1)) w
  = match keyspace (redis w) !! name with
    | None => absent_reply (absent (redis w))
    | Some l => Some l
    end.
Proof. by destruct (run_eq _ _ _ _ (lrange_all name w)) as [-> _]. Qed.

Lemma after_lrange_all name w :
  after (lrange name 0 (-1)) w
  = World (redis w) (wire w ++ [Single (LRANGE name 0 (-1))]) (records w).
Proof. by destruct (run_eq _ _ _ _ (lrange_all name w)) as [_ ->]. Qed.

Lemma lookup_after_lpush name e w :
  keyspace (redis (after (lpush name e) w)) !! name = Some (e :: llist name (redis w)).
Proof. rewrite after_lpush. apply store_cons_present. Qed.

Lemma lookup_after_rpush name e w :
  keyspace (redis (after (rpush name e) w)) !! name = Some (llist name (redis w) ++ [e]).
Proof.
  rewrite after_rpush. apply store_lookup_nonempty.
  by destruct (llist name (redis w)).
Qed.

Lemma or_empty_cons x l : or_empty (Some (x :: l)) = Some (x :: l).
Proof. reflexivity. Qed.

(** Once something was pushed, a full range read returns the list. *)
Lemma range_after_pushes (push : string -> M unit) (name : string) xs x w :
  (forall e w, keyspace (redis (after (push e) w)) !! name
               = Some (llist name (redis (after (push e) w)))) ->
  result (lrange name 0 (-1)) (after (for_each push (xs ++ [x])) w)
  = Some (llist name (redis (after (for_each push (xs ++ [x])) w))).
Proof.
  intros Hpush. rewrite result_lrange_all, after_for_each_app.
  cbn [for_each]. rewrite after_bind, after_ret, Hpush. reflexivity.
Qed.

(** X5. After at least one push, from any state, [elements()] of a queue
    and of a stack list the pushed elements newest first, followed by what
    the list held before; so does a deque filled with [pushback], while a
    deque filled with [pushfront] lists them oldest first, after what the
    list held before. *)
Theorem elements_after_pushes (key x : string) (xs : list string) (w : world) :
  let l := llist key (redis w) in
  result (for_each (Queue.push (Queue.Make key)) (xs ++ [x]) ;;
          Queue.elements (Queue.Make key)) w
    = Some (x :: reverse xs ++ l) /\
  result (for_each (Stack.push (Stack.Make key)) (xs ++ [x]) ;;
          Stack.elements (Stack.Make key)) w
    = Some (x :: reverse xs ++ l) /\
  result (for_each (Deque.pushback (Deque.Make key)) (xs ++ [x]) ;;
          Deque.elements (Deque.Make key)) w
    = Some (x :: reverse xs ++ l) /\
  result (for_each (Deque.pushfront (Deque.Make key)) (xs ++ [x]) ;;
          Deque.elements (Deque.Make key)) w
    = Some (l ++ xs ++ [x]).
Proof.
  intros l.
  assert (Hleft : forall push,
    (forall e w, after (push e) w
                 = after (log_debug (pushed_message e key)) (after (lpush key e) w)) ->
    result (lrange key 0 (-1)) (after (for_each push (xs ++ [x])) w)
    = Some (x :: reverse xs ++ l)).
  { intros push Hpush.
    rewrite (range_after_pushes push key).
    - rewrite (left_pushes push key), reverse_snoc; [reflexivity|].
      intros e w0. rewrite Hpush, redis_log_debug. apply lpush_llist.
    - intros e w0. rewrite Hpush, redis_log_debug, lookup_after_lpush, lpush_llist.
      reflexivity. }
  unfold Queue.elements, Stack.elements, Deque.elements.
  cbn [Queue.key Stack.key Deque.key]. monad_simpl.
  rewrite !Hleft by (intros; push_shape; reflexivity).
  rewrite or_empty_cons. repeat split.
  rewrite (range_after_pushes _ key).
  - rewrite (right_pushes _ key); [reflexivity|].
    apply (Deque_pushfront_llist (Deque.Make key)).
  - intros e w0. push_shape. cbn [Deque.key].
    rewrite redis_log_debug, lookup_after_rpush, rpush_llist. reflexivity.
Qed.

(** X6. Reading changes nothing: [elements()] and [elements_as_json()] of
    every class send the one request [LRANGE key 0 -1] and leave the server
    and the log as they were. *)
Theorem reads_change_nothing (key : string) (size : Z) (w : world) :
  let unchanged := World (redis w) (wire w ++ [Single (LRANGE key 0 (-1))]) (records w) in
  after (Deque.elements (Deque.Make key)) w = unchanged /\
  after (Deque.elements_as_json (Deque.Make key)) w = unchanged /\
  after (Queue.elements (Queue.Make key)) w = unchanged /\
  after (Queue.elements_as_json (Queue.Make key)) w = unchanged /\
  after (CappedCollection.elements (CappedCollection.Make key size)) w = unchanged /\
  after (CappedCollection.elements_as_json (CappedCollection.Make key size)) w = unchanged /\
  after (Stack.elements (Stack.Make key)) w = unchanged /\
  after (Stack.elements_as_json (Stack.Make key)) w = unchanged.
Proof.
  intros unchanged.
  unfold Deque.elements_as_json, Deque.elements, Queue.elements_as_json,
    Queue.elements, CappedCollection.elements_as_json, CappedCollection.elements,
    Stack.elements_as_json, Stack.elements.
  cbn [Deque.key Queue.key CappedCollection.key Stack.key].
  monad_simpl. rewrite after_lrange_all. repeat split.
Qed.

(** X7. In every state [Queue.elements()] is a list, the one stored under
    the key (empty when there is none), never [None]; and
    [Queue.elements_as_json()] decodes to that list. *)
Theorem Queue_elements_is_the_list (q : Queue.t) (w : world) :
  result (Queue.elements q) w = Some (llist (Queue.key q) (redis w)) /\
  Json.loads (result (Queue.elements_as_json q) w)
    = Some (Some (llist (Queue.key q) (redis w))).
Proof.
  unfold Queue.elements, Queue.elements_as_json. monad_simpl.
  rewrite loads_dumps, result_lrange_all. unfold llist.
  destruct (keyspace (redis w) !! Queue.key q) as [[|x l]|];
    [done | done | by destruct (absent (redis w))].
Qed.

(** ** Other keys *)

Section OtherKeys.
Variables (name name' : string).
Hypothesis different : name <> name'.
Implicit Types (w : world).

Lemma lpush_other e w :
  keyspace (redis (after (lpush name e) w)) !! name' = keyspace (redis w) !! name'.
Proof. rewrite after_lpush. by apply lookup_store_ne. Qed.

Lemma rpush_other e w :
  keyspace (redis (after (rpush name e) w)) !! name' = keyspace (redis w) !! name'.
Proof. rewrite after_rpush. by apply lookup_store_ne. Qed.

Lemma rpop_other w :
  keyspace (redis (after (rpop name) w)) !! name' = keyspace (redis w) !! name'.
Proof.
  destruct (llist name (redis w)) as [|x l _] eqn:H using rev_ind.
  - by rewrite redis_rpop_empty.
  - destruct (run_eq _ _ _ _ (rpop_snoc _ _ _ _ H)) as [_ ->].
    by apply lookup_store_ne.
Qed.

Lemma lpop_other w :
  keyspace (redis (after (lpop name) w)) !! name' = keyspace (redis w) !! name'.
Proof.
  destruct (llist name (redis w)) as [|x l] eqn:H.
  - by rewrite redis_lpop_empty.
  - destruct (run_eq _ _ _ _ (lpop_cons _ _ _ _ H)) as [_ ->].
    by apply lookup_store_ne.
Qed.

Lemma capped_push_other size e w :
  keyspace (redis (after (CappedCollection.push (CappedCollection.Make name size) e) w))
    !! name'
  = keyspace (redis w) !! name'.
Proof.
  destruct (run_eq _ _ _ _ (CappedCollection_push_run
                              (CappedCollection.Make name size) e w)) as [_ ->].
  cbn [redis CappedCollection.key]. by rewrite !lookup_store_ne.
Qed.
End OtherKeys.

(** X8. A handle only ever touches its own key: no push or pop of any of
    the four classes changes what the server holds under another key. *)
Theorem other_keys_untouched (key key' element : string) (size : Z) (w : world) :
  key <> key' ->
  let same (w' : world) := keyspace (redis w') !! key' = keyspace (redis w) !! key' in
  same (after (Deque.pushback (Deque.Make key) element) w) /\
  same (after (Deque.pushfront (Deque.Make key) element) w) /\
  same (after (Deque.popfront (Deque.Make key)) w) /\
  same (after (Deque.popback (Deque.Make key)) w) /\
  same (after (Queue.push (Queue.Make key) element) w) /\
  same (after (Queue.pop (Queue.Make key)) w) /\
  same (after (CappedCollection.push (CappedCollection.Make key size) element) w) /\
  same (after (CappedCollection.pop (CappedCollection.Make key size)) w) /\
  same (after (Stack.push (Stack.Make key) element) w) /\
  same (after (Stack.pop (Stack.Make key)) w).
Proof.
  intros Hne same. subst same. cbv beta.
  rewrite (capped_push_other key key' Hne).
  pop_shape. push_shape.
  cbn [Deque.key Queue.key CappedCollection.key Stack.key].
  rewrite !redis_log_debug, !(lpush_other key key' Hne), !(rpush_other key key' Hne),
    !(rpop_other key key' Hne), !(lpop_other key key' Hne).
  repeat split.
Qed.

Lemma other_keys_untouched_witness :
  let w := World (store "other" ["x"%string] (Server EmptyMultiBulk ∅)) [] [] in
  "k"%string <> "other"%string /\
  keyspace (redis (after (Queue.push (Queue.Make "k") "e") w)) !! "other"%string
  = keyspace (redis w) !! "other"%string.
Proof.
  intros w. assert (Hne : "k"%string <> "other"%string) by discriminate.
  split; [exact Hne|].
  pose proof (other_keys_untouched "k" "other" "e" 1 w Hne) as (_ & _ & _ & _ & H & _).
  exact H.
Defined.

(** ** CappedCollection, further *)

Section CappedMore.
Variable c : CappedCollection.t.
Let key := CappedCollection.key c.

Lemma CappedCollection_pops ys j w :
  llist key (redis w) = reverse ys ->
  result (times (length ys + j) (CappedCollection.pop c)) w
  = (Some <$> ys) ++ replicate j None.
Proof.
  intros H. apply (right_pops (CappedCollection.pop c) key); [| | |exact H].
  - intros w0. pop_shape. apply result_rpop.
  - intros w0 l0 x. pop_shape. apply rpop_llist_snoc.
  - intros w0. pop_shape. apply rpop_llist_nil.
Qed.

(** What a push leaves when the size is not positive: the index
    [size - 1] is negative and counts from the end of the list. *)
Lemma capped_llist_after_push_nonpositive e w :
  (CappedCollection.size c <= 0)%Z ->
  llist key (redis (after (CappedCollection.push c e) w))
  = take (Z.to_nat (Z.of_nat (length (e :: llist key (redis w)))
                    + CappedCollection.size c))
         (e :: llist key (redis w)).
Proof.
  intros Hsize.
  destruct (run_eq _ _ _ _ (CappedCollection_push_run c e w)) as [_ ->].
  cbn [redis]. fold key. rewrite llist_store.
  set (l := e :: llist key (redis w)).
  assert (Hl : (0 < Z.of_nat (length l))%Z) by (subst l; simpl; lia).
  unfold slice. cbv zeta. change (0 <? 0)%Z with false. cbv iota.
  compare_cases; simpl orb; cbv iota; try lia.
  - symmetry. replace (Z.to_nat _) with 0 by lia. apply take_0.
  - change (Z.to_nat 0) with 0. rewrite drop_0. f_equal. lia.
Qed.
End CappedMore.

(** X9. A capped collection pops what it kept, oldest first: with a
    positive capacity [k] and a fresh key, after pushing [xs] the pops
    return the last [k] elements of [xs] in push order (all of [xs] when
    there are fewer), then [None]. *)
Theorem CappedCollection_pops_kept_oldest_first
    (c : CappedCollection.t) (xs : list string) (j : nat) (w : world) :
  (0 < CappedCollection.size c)%Z ->
  fresh (CappedCollection.key c) w ->
  let kept := drop (length xs - Z.to_nat (CappedCollection.size c)) xs in
  result (for_each (CappedCollection.push c) xs ;;
          times (length kept + j) (CappedCollection.pop c)) w
  = (Some <$> kept) ++ replicate j None.
Proof.
  intros Hpos Hfresh kept. rewrite result_bind.
  apply CappedCollection_pops.
  rewrite capped_pushes; [|exact Hpos|rewrite (fresh_llist _ _ Hfresh); simpl; lia].
  rewrite (fresh_llist _ _ Hfresh), app_nil_r. apply take_reverse.
Qed.

Lemma CappedCollection_pops_kept_oldest_first_witness :
  let c := CappedCollection.Make "k" 2 in
  let w := World (Server NullMultiBulk ∅) [] [] in
  ((0 < CappedCollection.size c)%Z /\ fresh (CappedCollection.key c) w) /\
  result (for_each (CappedCollection.push c) ["a"; "b"; "c"]%string ;;
          times 3 (CappedCollection.pop c)) w
  = [Some "b"; Some "c"; None]%string.
Proof.
  intros c w. split; [split; reflexivity|].
  exact (CappedCollection_pops_kept_oldest_first
           c ["a"; "b"; "c"]%string 1 w eq_refl eq_refl).
Defined.

(** X10. With a positive capacity [k], pushing onto whatever the list
    holds, however long, leaves the first [k] elements of the pushed
    elements (newest first) followed by the old list. *)
Theorem CappedCollection_pushes_onto_any_list
    (c : CappedCollection.t) (x : string) (xs : list string) (w : world) :
  (0 < CappedCollection.size c)%Z ->
  llist (CappedCollection.key c)
        (redis (after (for_each (CappedCollection.push c) (x :: xs)) w))
  = take (Z.to_nat (CappedCollection.size c))
         (reverse (x :: xs) ++ llist (CappedCollection.key c) (redis w)).
Proof.
  intros Hpos. cbn [for_each]. rewrite after_bind.
  rewrite capped_pushes by (try exact Hpos; by apply capped_length_after_push).
  rewrite capped_llist_after_push by exact Hpos.
  rewrite take_app_take, reverse_cons, <- app_assoc. reflexivity.
Qed.

Lemma CappedCollection_pushes_onto_any_list_witness :
  let c := CappedCollection.Make "k" 2 in
  let w := World (store "k" ["p"; "q"; "r"]%string (Server EmptyMultiBulk ∅)) [] [] in
  (0 < CappedCollection.size c)%Z /\
  llist "k" (redis (after (for_each (CappedCollection.push c) ["a"%string]) w))
  = ["a"; "p"]%string.
Proof.
  intros c w. split; [reflexivity|].
  exact (CappedCollection_pushes_onto_any_list c "a" [] w eq_refl).
Defined.

(** X11. A negative size bounds nothing and keeps nothing new: every push
    is followed by a trim that cuts [-size] elements off the right end, so
    the list never grows, and on a fresh key it stays empty whatever is
    pushed. *)
Theorem CappedCollection_negative_size
    (c : CappedCollection.t) (xs : list string) (e : string) (w : world) :
  (CappedCollection.size c < 0)%Z ->
  let key := CappedCollection.key c in
  let l := llist key (redis w) in
  llist key (redis (after (CappedCollection.push c e) w))
    = take (length l + 1 - Z.to_nat (- CappedCollection.size c)) (e :: l) /\
  length (llist key (redis (after (CappedCollection.push c e) w))) <= length l /\
  (fresh key w ->
   llist key (redis (after (for_each (CappedCollection.push c) xs) w)) = []).
Proof.
  intros Hneg key l. subst key l.
  assert (Hpush : forall e w,
    llist (CappedCollection.key c) (redis (after (CappedCollection.push c e) w))
    = take (length (llist (CappedCollection.key c) (redis w)) + 1
            - Z.to_nat (- CappedCollection.size c))
           (e :: llist (CappedCollection.key c) (redis w))).
  { intros e0 w0. rewrite capped_llist_after_push_nonpositive by lia.
    f_equal. cbn [length]. lia. }
  split; [apply Hpush|]. split.
  - rewrite Hpush, length_take. lia.
  - intros Hfresh. apply fresh_llist in Hfresh.
    revert w Hfresh. induction xs as [|x xs' IH]; intros w Hfresh; [exact Hfresh|].
    cbn [for_each]. rewrite after_bind. apply IH.
    rewrite Hpush, Hfresh. cbn [length].
    replace (0 + 1 - Z.to_nat (- CappedCollection.size c)) with 0 by lia.
    reflexivity.
Qed.

Lemma CappedCollection_negative_size_witness :
  let c := CappedCollection.Make "k" (-1) in
  let w := World (Server EmptyMultiBulk ∅) [] [] in
  ((CappedCollection.size c < 0)%Z /\ fresh "k" w) /\
  llist "k" (redis (after (for_each (CappedCollection.push c) ["a"; "b"]%string) w)) = [].
Proof.
  intros c w. split; [split; reflexivity|].
  exact (proj2 (proj2 (CappedCollection_negative_size
                         c ["a"; "b"]%string "a" w eq_refl)) eq_refl).
Defined.

(** ** Handles are views on one list *)

(** X12. What a push puts on an end of the list, a pop at that end takes
    off again, from any state and across classes: [Stack.push] or
    [Queue.push] then [Stack.pop], [Deque.pushback] then [Deque.popback],
    [Deque.pushfront] then [Deque.popfront] return the element just pushed
    and leave the list as it was. *)
Theorem push_then_pop_at_same_end (key e : string) (w : world) :
  let l := llist key (redis w) in
  (result (Stack.push (Stack.Make key) e ;; Stack.pop (Stack.Make key)) w = Some e /\
   llist key (redis (after (Stack.push (Stack.Make key) e ;;
                            Stack.pop (Stack.Make key)) w)) = l) /\
  (result (Queue.push (Queue.Make key) e ;; Stack.pop (Stack.Make key)) w = Some e /\
   llist key (redis (after (Queue.push (Queue.Make key) e ;;
                            Stack.pop (Stack.Make key)) w)) = l) /\
  (result (Deque.pushback (Deque.Make key) e ;; Deque.popback (Deque.Make key)) w
     = Some e /\
   llist key (redis (after (Deque.pushback (Deque.Make key) e ;;
                            Deque.popback (Deque.Make key)) w)) = l) /\
  (result (Deque.pushfront (Deque.Make key) e ;; Deque.popfront (Deque.Make key)) w
     = Some e /\
   llist key (redis (after (Deque.pushfront (Deque.Make key) e ;;
                            Deque.popfront (Deque.Make key)) w)) = l).
Proof.
  intros l. subst l. rewrite !result_bind, !after_bind. pop_shape. push_shape.
  cbn [Stack.key Queue.key Deque.key].
  rewrite !result_lpop, !result_rpop.
  set (w1 := after (log_debug (pushed_message e key)) (after (lpush key e) w)).
  set (w2 := after (log_debug (pushed_message e key)) (after (rpush key e) w)).
  assert (H1 : llist key (redis w1) = e :: llist key (redis w))
    by apply lpush_llist.
  assert (H2 : llist key (redis w2) = llist key (redis w) ++ [e])
    by apply rpush_llist.
  rewrite (lpop_llist_cons _ _ _ _ H1), (rpop_llist_snoc _ _ _ _ H2), H1, H2, last_snoc.
  repeat split.
Qed.

(** ** One request per call *)

(** X13. Each push and pop of a queue and of a stack, and the pop of a
    capped collection, sends exactly one single command: LPUSH for the
    pushes, RPOP for the pops of [Queue] and [CappedCollection], LPOP for
    the pop of [Stack]. *)
Theorem one_request_per_call (key e : string) (size : Z) (w : world) :
  wire (after (Queue.push (Queue.Make key) e) w) = wire w ++ [Single (LPUSH key e)] /\
  wire (after (Queue.pop (Queue.Make key)) w) = wire w ++ [Single (RPOP key)] /\
  wire (after (Stack.push (Stack.Make key) e) w) = wire w ++ [Single (LPUSH key e)] /\
  wire (after (Stack.pop (Stack.Make key)) w) = wire w ++ [Single (LPOP key)] /\
  wire (after (CappedCollection.pop (CappedCollection.Make key size)) w)
    = wire w ++ [Single (RPOP key)].
Proof.
  pop_shape. cbn [Queue.key Stack.key CappedCollection.key].
  rewrite !wire_rpop, !wire_lpop. repeat split.
Qed.

(** X14. A pop that finds nothing is logged like any other, with the text
    [None] in the place of the element. *)
Theorem pop_of_nothing_is_logged (key : string) (size : Z) (w : world) :
  llist key (redis w) = [] ->
  let message := ("Popped ** None ** from key ** " +:+ key +:+ " **")%string in
  records (after (Deque.popfront (Deque.Make key)) w) = records w ++ [message] /\
  records (after (Deque.popback (Deque.Make key)) w) = records w ++ [message] /\
  records (after (Queue.pop (Queue.Make key)) w) = records w ++ [message] /\
  records (after (Stack.pop (Stack.Make key)) w) = records w ++ [message] /\
  records (after (CappedCollection.pop (CappedCollection.Make key size)) w)
    = records w ++ [message].
Proof.
  intros H message. pop_shape.
  cbn [Deque.key Queue.key Stack.key CappedCollection.key].
  rewrite !records_rpop, !records_lpop, !result_rpop, !result_lpop, H.
  repeat split.
Qed.

Lemma pop_of_nothing_is_logged_witness :
  let w := World (Server EmptyMultiBulk ∅) [] [] in
  llist "jobs" (redis w) = [] /\
  records (after (Queue.pop (Queue.Make "jobs")) w)
  = ["Popped ** None ** from key ** jobs **"%string].
Proof.
  intros w. split; [reflexivity|].
  pose proof (pop_of_nothing_is_logged "jobs" 0 w eq_refl) as (_ & _ & H & _).
  exact H.
Defined.

(** ** Concurrent pushes on a queue *)

Section QueuePushers.
Import Concurrent.
Variable q : Queue.t.

Lemma Queue_push_sends e : sends (Queue.push q e) (Single (LPUSH (Queue.key q) e)).
Proof. intros w. reflexivity. Qed.

Lemma step_queue_push s ev s' :
  queue_pushers q s -> step s ev s' ->
  queue_pushers q s' /\
  exists e, what ev = Single (LPUSH (Queue.key q) e) /\
            llist (Queue.key q) (srv s') = e :: llist (Queue.key q) (srv s).
Proof.
  intros Hcl Hstep. destruct Hstep as [i rq rest srv0 cls rs srv1 Hi Hserve].
  unfold queue_pushers in *. cbn [clients srv what] in *.
  pose proof (Forall_lookup_1 _ _ _ _ Hcl Hi) as Hreqs.
  apply Forall_cons in Hreqs as [[e Hrq] Hrest].
  split; [by apply Forall_insert|].
  exists e. pose proof (sends_functional _ _ _ Hrq (Queue_push_sends e)) as ->.
  split; [reflexivity|].
  cbn [serve exec] in Hserve. injection Hserve as _ <-. apply llist_store.
Qed.
End QueuePushers.

(** X16. No push is lost and none is reordered by the server: when any
    number of clients push on one queue concurrently, after any run the
    list holds, in front of what it held before, exactly the elements of
    the served pushes, the latest served first; every served request is
    one of these pushes. *)
Theorem concurrent_pushes_all_arrive
    (q : Queue.t) (s s' : Concurrent.system) (tr : list Concurrent.event) :
  queue_pushers q s ->
  Concurrent.run s tr s' ->
  llist (Queue.key q) (Concurrent.srv s')
    = reverse (pushed tr) ++ llist (Queue.key q) (Concurrent.srv s) /\
  length (pushed tr) = length tr.
Proof.
  intros Hcl Hrun. induction Hrun as [|s ev s1 tr s2 Hstep _ IH]; [done|].
  destruct (step_queue_push q _ _ _ Hcl Hstep) as (Hcl1 & e & Hev & Hl).
  destruct (IH Hcl1) as [IHl IHn].
  unfold pushed in *. cbn [omap list_omap]. rewrite Hev.
  split.
  - rewrite IHl, Hl, reverse_cons, <- app_assoc. reflexivity.
  - cbn [length]. by rewrite IHn.
Qed.

Lemma concurrent_pushes_all_arrive_witness :
  let q := Queue.Make "jobs" in
  let rq e := Single (LPUSH "jobs" e) in
  let srv0 := Server EmptyMultiBulk ∅ in
  let srv1 := snd (serve (rq "b"%string) srv0) in
  let srv2 := snd (serve (rq "a"%string) srv1) in
  let s := Concurrent.System srv0 [[rq "a"%string]; [rq "b"%string]] in
  let s' := Concurrent.System srv2 [[]; []] in
  let tr := [Concurrent.Event 1 (rq "b"%string) (fst (serve (rq "b"%string) srv0)) srv1;
             Concurrent.Event 0 (rq "a"%string) (fst (serve (rq "a"%string) srv1)) srv2] in
  (queue_pushers q s /\ Concurrent.run s tr s') /\
  llist "jobs" srv2 = ["a"; "b"]%string.
Proof.
  intros q rq srv0 srv1 srv2 s s' tr.
  assert (Hcl : queue_pushers q s).
  { constructor; [|constructor; [|constructor]];
      (constructor; [eexists; apply Queue_push_sends | constructor]). }
  assert (Hrun : Concurrent.run s tr s').
  { eapply Concurrent.run_step.
    - exact (Concurrent.step_serve 1 (rq "b"%string) [] srv0
               [[rq "a"%string]; [rq "b"%string]] _ _
               eq_refl (surjective_pairing _)).
    - eapply Concurrent.run_step; [|apply Concurrent.run_done].
      exact (Concurrent.step_serve 0 (rq "a"%string) [] srv1
               [[rq "a"%string]; []] _ _
               eq_refl (surjective_pairing _)). }
  split; [by split|].
  exact (proj1 (concurrent_pushes_all_arrive q s s' tr Hcl Hrun)).
Defined.

(** ** The log follows the calls *)

Section QueueLog.
Variable q : Queue.t.
Let key := Queue.key q.

Lemma Queue_pushes_records xs w :
  records (after (for_each (Queue.push q) xs) w)
  = records w ++ ((fun e => pushed_message e key) <$> xs).
Proof.
  revert w. induction xs as [|x xs IH]; intros w.
  - simpl. by rewrite app_nil_r.
  - cbn [for_each]. rewrite after_bind, IH.
    destruct (run_eq _ _ _ _ (Queue_push_run q x w)) as [_ ->].
    cbn [records fmap list_fmap]. by rewrite <- app_assoc.
Qed.

Lemma Queue_pops_records n w :
  records (after (times n (Queue.pop q)) w)
  = records w ++ ((fun r => popped_message r key) <$> result (times n (Queue.pop q)) w).
Proof.
  revert w. induction n as [|n IH]; intros w.
  - simpl. by rewrite app_nil_r.
  - rewrite result_times_S, after_times_S, IH.
    replace (records (after (Queue.pop q) w))
      with (records w ++ [popped_message (result (Queue.pop q) w) key]).
    + cbn [fmap list_fmap]. by rewrite <- app_assoc.
    + unfold Queue.pop. fold key.
      by rewrite pop_method_records, pop_method_result, records_rpop.
Qed.
End QueueLog.

(** X17. The log of a queue follows its calls one for one and in order:
    after pushing [xs] and popping [n] times it has gained one [Pushed]
    message per pushed element, then one [Popped] message per pop carrying
    what that pop returned. *)
Theorem Queue_log_follows_the_calls
    (q : Queue.t) (xs : list string) (n : nat) (w : world) :
  let calls := for_each (Queue.push q) xs ;; times n (Queue.pop q) in
  records (after calls w)
  = records w
    ++ ((fun e => pushed_message e (Queue.key q)) <$> xs)
    ++ ((fun r => popped_message r (Queue.key q)) <$> result calls w).
Proof.
  intros calls. subst calls. rewrite after_bind, result_bind.
  rewrite Queue_pops_records, Queue_pushes_records, <- app_assoc. reflexivity.
Qed.
